(** * The expression evaluator of C-Calculator

    A shallow embedding of the evaluation core that the four front-ends of
    the repository share: the hand-written lexer, the recursive-descent
    parser that computes the value while it descends, and [evaluate].

    - [double] is IEEE-754 binary64: Rocq's primitive [float].  The C
      operators [+ - * /], unary minus and the comparisons [==], [<], [<=]
      are the primitive operations.
    - The functions of <math.h> and <stdlib.h> ([sin], [pow], [fmod],
      [atof], ...) live outside the repository: they are the interface
      [Libm].  The theorems hold for every implementation of it; the
      examples run on the one of [Reference].
    - The core exists in four copies that differ in the wording of their
      messages and in one rule ([parse_factor]); the copy is the [Dialect]. *)

From Stdlib Require Import Bool Arith ZArith Lia List.
From Stdlib Require Import Strings.Ascii Strings.String.
From Stdlib Require Import Floats.PrimFloat Floats.SpecFloat Floats.FloatOps.
Import ListNotations.

Open Scope string_scope.
Open Scope nat_scope.

(* ================================================================= *)
(** ** Characters and C strings *)

(** [<ctype.h>] in the "C" locale; no byte above 127 is in a class. *)
Definition isspace (c : ascii) : bool :=
  let n := nat_of_ascii c in (n =? 32) || ((9 <=? n) && (n <=? 13)).

Definition isdigit (c : ascii) : bool :=
  let n := nat_of_ascii c in (48 <=? n) && (n <=? 57).

Definition isalpha (c : ascii) : bool :=
  let n := nat_of_ascii c in
  ((65 <=? n) && (n <=? 90)) || ((97 <=? n) && (n <=? 122)).

(** The terminating NUL of a C string. *)
Definition is_nul (c : ascii) : bool := (nat_of_ascii c =? 0).

(** [input + n]: the text from index [n] on. *)
Fixpoint drop (n : nat) (s : string) : string :=
  match n, s with
  | 0, _ => s
  | S k, String _ s' => drop k s'
  | S _, EmptyString => EmptyString
  end.

(** [s[0]]; reading at the end of the text yields the NUL. *)
Definition peek (s : string) : ascii :=
  match s with
  | String c _ => c
  | EmptyString => Ascii.zero
  end.

(** [input[n]]. *)
Definition char_at (s : string) (n : nat) : ascii := peek (drop n s).

(** [strncpy(dst, src, n); dst[n] = 0] on a source without NUL in its first
    [n] characters. *)
Definition strncpy (src : string) (n : nat) : string := substring 0 n src.

Definition MAX_TOKEN_LEN : nat := 256.

(* ================================================================= *)
(** ** Tokens *)

Inductive TokenType : Set :=
| TOKEN_NUMBER | TOKEN_PLUS | TOKEN_MINUS | TOKEN_MULTIPLY | TOKEN_DIVIDE
| TOKEN_MODULO | TOKEN_POWER | TOKEN_LPAREN | TOKEN_RPAREN
| TOKEN_SIN | TOKEN_COS | TOKEN_TAN | TOKEN_SQRT | TOKEN_LOG | TOKEN_EXP
| TOKEN_ABS | TOKEN_PI | TOKEN_E | TOKEN_EOF | TOKEN_ERROR.

Definition TokenType_eq_dec (a b : TokenType) : {a = b} + {a <> b}.
Proof. decide equality. Defined.

Definition type_eqb (a b : TokenType) : bool :=
  if TokenType_eq_dec a b then true else false.

Record Token : Set := mkToken {
  type : TokenType;
  value : float;
  text : string
}.

(** [M_PI] and [M_E] of <math.h>, as the doubles they denote. *)
Definition M_PI : float := 0x1.921fb54442d18p+1%float.
Definition M_E : float := 0x1.5bf0a8b145769p+1%float.

(* ================================================================= *)
(** ** The C library *)

(** The functions the core calls from <stdlib.h> and <math.h>. *)
Class Libm : Set := {
  atof : string -> float;
  sin : float -> float;
  cos : float -> float;
  tan : float -> float;
  sqrt : float -> float;
  log : float -> float;
  exp : float -> float;
  fabs : float -> float;
  pow : float -> float -> float;
  fmod : float -> float -> float
}.

(* ================================================================= *)
(** ** The four copies of the core *)

(** What differs between calculator.c, calculator_tui.c, calculator_mac.m
    and calculator_gui.c: the text of the messages, and whether
    [parse_factor] multiplies adjacent operands. *)
Record Dialect : Set := {
  implicit_multiplication : bool;
  msg_unknown_identifier : string;
  msg_unexpected_character : string;
  msg_sqrt : string;
  msg_log : string;
  msg_paren : string;
  msg_end : string;
  msg_unexpected_token : string;
  msg_extra : string
}.

(** calculator.c, the line-mode REPL. *)
Definition cli : Dialect := {|
  implicit_multiplication := false;
  msg_unknown_identifier := "Unknown identifier: ";
  msg_unexpected_character := "Unexpected character: ";
  msg_sqrt := "Square root of negative number";
  msg_log := "Logarithm of non-positive number";
  msg_paren := "Expected closing parenthesis";
  msg_end := "Unexpected end of expression";
  msg_unexpected_token := "Unexpected token: ";
  msg_extra := "Unexpected tokens after expression"
|}.

(** calculator_tui.c (calculator_gui.c has the same core). *)
Definition tui : Dialect := {|
  implicit_multiplication := false;
  msg_unknown_identifier := "Unknown: ";
  msg_unexpected_character := "Unknown: ";
  msg_sqrt := "Sqrt of negative";
  msg_log := "Log of non-positive";
  msg_paren := "Missing )";
  msg_end := "Unexpected end";
  msg_unexpected_token := "Unexpected: ";
  msg_extra := "Extra tokens"
|}.

(** calculator_mac.m: the messages of the TUI, and implicit multiplication. *)
Definition mac : Dialect := {|
  implicit_multiplication := true;
  msg_unknown_identifier := "Unknown: ";
  msg_unexpected_character := "Unknown: ";
  msg_sqrt := "Sqrt of negative";
  msg_log := "Log of non-positive";
  msg_paren := "Missing )";
  msg_end := "Unexpected end";
  msg_unexpected_token := "Unexpected: ";
  msg_extra := "Extra tokens"
|}.

(* ================================================================= *)
(** ** Lexer *)

Record Lexer : Set := mkLexer {
  input : string;
  position : nat;
  current : Token
}.

(** The text not yet consumed, [input + position]. *)
Definition remaining (l : Lexer) : string := drop (position l) (input l).

Definition set_position (l : Lexer) (n : nat) : Lexer :=
  {| input := input l; position := n; current := current l |}.

(** [while (s[i] && p(s[i])) i++]: how many characters the loop passes. *)
Fixpoint span (p : ascii -> bool) (s : string) : nat :=
  match s with
  | EmptyString => 0
  | String c s' => if negb (is_nul c) && p c then S (span p s') else 0
  end.

(** The loop of [lexer_read_number], with its flag [has_dot]. *)
Fixpoint number_span (has_dot : bool) (s : string) : nat :=
  match s with
  | EmptyString => 0
  | String c s' =>
      if is_nul c then 0
      else if isdigit c then S (number_span has_dot s')
      else if Ascii.eqb c "." && negb has_dot then S (number_span true s')
      else 0
  end.

Definition lexer_init (text : string) : Lexer :=
  {| input := text; position := 0;
     current := {| type := TOKEN_EOF; value := 0%float; text := "" |} |}.

Definition lexer_skip_whitespace (l : Lexer) : Lexer :=
  set_position l (position l + span isspace (remaining l)).

(** [len = position - start;
    if (len >= MAX_TOKEN_LEN) len = MAX_TOKEN_LEN - 1]. *)
Definition token_len (n : nat) : nat :=
  if MAX_TOKEN_LEN <=? n then MAX_TOKEN_LEN - 1 else n.

(** Calling a rule: its value and the parser it leaves. *)
Notation "'call' ( x , p ) <- e ; k" :=
  (match e with
   | Some (x, p) => k
   | None => None
   end)
  (at level 10, x name, p name, e at level 100, k at level 200,
   only parsing).

Section Core.

Context {M : Libm}.
Variable D : Dialect.

Definition lexer_read_number (l : Lexer) : Token * Lexer :=
  let start := position l in
  let l' := set_position l (start + number_span false (remaining l)) in
  let len := token_len (position l' - start) in
  let txt := strncpy (drop start (input l)) len in
  ({| type := TOKEN_NUMBER; value := atof txt; text := txt |}, l').

(** The [strcmp] chain of [lexer_read_identifier].  The value of a function
    name's token is never read; it is 0 here. *)
Definition keyword (txt : string) : Token :=
  if String.eqb txt "sin" then mkToken TOKEN_SIN 0 txt
  else if String.eqb txt "cos" then mkToken TOKEN_COS 0 txt
  else if String.eqb txt "tan" then mkToken TOKEN_TAN 0 txt
  else if String.eqb txt "sqrt" then mkToken TOKEN_SQRT 0 txt
  else if String.eqb txt "log" then mkToken TOKEN_LOG 0 txt
  else if String.eqb txt "exp" then mkToken TOKEN_EXP 0 txt
  else if String.eqb txt "abs" then mkToken TOKEN_ABS 0 txt
  else if String.eqb txt "pi" then mkToken TOKEN_PI M_PI txt
  else if String.eqb txt "e" then mkToken TOKEN_E M_E txt
  else mkToken TOKEN_ERROR 0 (msg_unknown_identifier D ++ txt).

Definition lexer_read_identifier (l : Lexer) : Token * Lexer :=
  let start := position l in
  let l' := set_position l (start + span isalpha (remaining l)) in
  let len := token_len (position l' - start) in
  (keyword (strncpy (drop start (input l)) len), l').

(** The [switch] of [lexer_next_token]. *)
Definition punctuation (c : ascii) : Token :=
  if Ascii.eqb c "+" then mkToken TOKEN_PLUS 0 "+"
  else if Ascii.eqb c "-" then mkToken TOKEN_MINUS 0 "-"
  else if Ascii.eqb c "*" then mkToken TOKEN_MULTIPLY 0 "*"
  else if Ascii.eqb c "/" then mkToken TOKEN_DIVIDE 0 "/"
  else if Ascii.eqb c "%" then mkToken TOKEN_MODULO 0 "%"
  else if Ascii.eqb c "^" then mkToken TOKEN_POWER 0 "^"
  else if Ascii.eqb c "(" then mkToken TOKEN_LPAREN 0 "("
  else if Ascii.eqb c ")" then mkToken TOKEN_RPAREN 0 ")"
  else mkToken TOKEN_ERROR 0 (msg_unexpected_character D ++ String c "").

Definition lexer_next_token (l0 : Lexer) : Token * Lexer :=
  let l := lexer_skip_whitespace l0 in
  let c := char_at (input l) (position l) in
  if is_nul c then (mkToken TOKEN_EOF 0 "", l)
  else if isdigit c
          || (Ascii.eqb c "." && isdigit (char_at (input l) (position l + 1)))
  then lexer_read_number l
  else if isalpha c then lexer_read_identifier l
  else (punctuation c, set_position l (position l + 1)).

Definition lexer_advance (l : Lexer) : Lexer :=
  let (t, l') := lexer_next_token l in
  {| input := input l'; position := position l'; current := t |}.

(* ================================================================= *)
(** ** Parser *)

Record Parser : Set := mkParser {
  lexer : Lexer;
  error : string;
  has_error : bool
}.

(** [lexer_advance(parser->lexer)]: the parser holds the only reference to
    its lexer. *)
Definition advance (p : Parser) : Parser :=
  {| lexer := lexer_advance (lexer p); error := error p;
     has_error := has_error p |}.

(** [parser->lexer->current.type]. *)
Definition current_type (p : Parser) : TokenType := type (current (lexer p)).

Definition parser_init (l : Lexer) : Parser :=
  {| lexer := lexer_advance l; error := ""; has_error := false |}.

Definition parser_error (p : Parser) (message : string) : Parser :=
  {| lexer := lexer p; error := strncpy message 255; has_error := true |}.

(** The tokens at which calculator_mac.m's [parse_factor] multiplies
    implicitly. *)
Definition starts_operand (t : TokenType) : bool :=
  match t with
  | TOKEN_PI | TOKEN_E | TOKEN_LPAREN
  | TOKEN_SIN | TOKEN_COS | TOKEN_TAN
  | TOKEN_SQRT | TOKEN_LOG | TOKEN_EXP
  | TOKEN_ABS | TOKEN_NUMBER => true
  | _ => false
  end.

(** A grammar rule returns its [double] and leaves the parser changed.
    The C functions recurse on the input; here they recurse on [fuel], one
    unit per call and per loop iteration, and [None] only ever means that
    the fuel ran out ([enough_fuel_suffices] shows it does not). *)
Fixpoint parse_expression (fuel : nat) (p : Parser)
  : option (float * Parser) :=
  match fuel with
  | 0 => None
  | S n =>
      call (left, p) <- parse_term n p;
      expression_loop n left p
  end

(** [while (!parser->has_error) { ... }] of [parse_expression]. *)
with expression_loop (fuel : nat) (left : float) (p : Parser)
  : option (float * Parser) :=
  match fuel with
  | 0 => None
  | S n =>
      if has_error p then Some (left, p)
      else match current_type p with
           | TOKEN_PLUS =>
               call (right, p) <- parse_term n (advance p);
               expression_loop n (left + right)%float p
           | TOKEN_MINUS =>
               call (right, p) <- parse_term n (advance p);
               expression_loop n (left - right)%float p
           | _ => Some (left, p)
           end
  end

with parse_term (fuel : nat) (p : Parser) : option (float * Parser) :=
  match fuel with
  | 0 => None
  | S n =>
      call (left, p) <- parse_factor n p;
      term_loop n left p
  end

(** [while (!parser->has_error) { ... }] of [parse_term]. *)
with term_loop (fuel : nat) (left : float) (p : Parser)
  : option (float * Parser) :=
  match fuel with
  | 0 => None
  | S n =>
      if has_error p then Some (left, p)
      else match current_type p with
           | TOKEN_MULTIPLY =>
               call (right, p) <- parse_factor n (advance p);
               term_loop n (left * right)%float p
           | TOKEN_DIVIDE =>
               call (right, p) <- parse_factor n (advance p);
               if (right =? 0)%float
               then Some (0%float, parser_error p "Division by zero")
               else term_loop n (left / right)%float p
           | TOKEN_MODULO =>
               call (right, p) <- parse_factor n (advance p);
               if (right =? 0)%float
               then Some (0%float, parser_error p "Modulo by zero")
               else term_loop n (fmod left right) p
           | _ => Some (left, p)
           end
  end

(** calculator.c, calculator_tui.c, calculator_gui.c: [return
    parse_power(parser)].  calculator_mac.m: a power, then the loop of
    implicit multiplications. *)
with parse_factor (fuel : nat) (p : Parser) : option (float * Parser) :=
  match fuel with
  | 0 => None
  | S n =>
      if implicit_multiplication D
      then call (left, p) <- parse_power n p;
           factor_loop n left p
      else parse_power n p
  end

(** [while (!parser->has_error) { ... }] of calculator_mac.m's
    [parse_factor]. *)
with factor_loop (fuel : nat) (left : float) (p : Parser)
  : option (float * Parser) :=
  match fuel with
  | 0 => None
  | S n =>
      if has_error p then Some (left, p)
      else if starts_operand (current_type p)
           then call (right, p) <- parse_power n p;
                factor_loop n (left * right)%float p
           else Some (left, p)
  end

with parse_power (fuel : nat) (p : Parser) : option (float * Parser) :=
  match fuel with
  | 0 => None
  | S n =>
      call (left, p) <- parse_unary n p;
      if negb (has_error p) && type_eqb (current_type p) TOKEN_POWER
      then call (right, p) <- parse_power n (advance p);
           Some (pow left right, p)
      else Some (left, p)
  end

with parse_unary (fuel : nat) (p : Parser) : option (float * Parser) :=
  match fuel with
  | 0 => None
  | S n =>
      match current_type p with
      | TOKEN_MINUS =>
          call (v, p) <- parse_unary n (advance p);
          Some ((- v)%float, p)
      | TOKEN_PLUS => parse_unary n (advance p)
      | TOKEN_SIN =>
          call (v, p) <- parse_primary n (advance p);
          Some (sin v, p)
      | TOKEN_COS =>
          call (v, p) <- parse_primary n (advance p);
          Some (cos v, p)
      | TOKEN_TAN =>
          call (v, p) <- parse_primary n (advance p);
          Some (tan v, p)
      | TOKEN_SQRT =>
          call (v, p) <- parse_primary n (advance p);
          if (v <? 0)%float
          then Some (0%float, parser_error p (msg_sqrt D))
          else Some (sqrt v, p)
      | TOKEN_LOG =>
          call (v, p) <- parse_primary n (advance p);
          if (v <=? 0)%float
          then Some (0%float, parser_error p (msg_log D))
          else Some (log v, p)
      | TOKEN_EXP =>
          call (v, p) <- parse_primary n (advance p);
          Some (exp v, p)
      | TOKEN_ABS =>
          call (v, p) <- parse_primary n (advance p);
          Some (fabs v, p)
      | _ => parse_primary n p
      end
  end

with parse_primary (fuel : nat) (p : Parser) : option (float * Parser) :=
  match fuel with
  | 0 => None
  | S n =>
      let token := current (lexer p) in
      match type token with
      | TOKEN_NUMBER | TOKEN_PI | TOKEN_E => Some (value token, advance p)
      | TOKEN_LPAREN =>
          call (v, p) <- parse_expression n (advance p);
          if type_eqb (current_type p) TOKEN_RPAREN
          then Some (v, advance p)
          else Some (0%float, parser_error p (msg_paren D))
      | TOKEN_EOF => Some (0%float, parser_error p (msg_end D))
      | TOKEN_ERROR => Some (0%float, parser_error p (text token))
      | _ =>
          Some (0%float,
                parser_error p (msg_unexpected_token D ++ text token))
      end
  end.

(** The seven function branches of [parse_unary] as one: what it does with
    the value of the primary after a function name. *)
Definition apply_function (t : TokenType) (v : float) (p : Parser)
  : float * Parser :=
  match t with
  | TOKEN_SIN => (sin v, p)
  | TOKEN_COS => (cos v, p)
  | TOKEN_TAN => (tan v, p)
  | TOKEN_SQRT =>
      if (v <? 0)%float then (0%float, parser_error p (msg_sqrt D))
      else (sqrt v, p)
  | TOKEN_LOG =>
      if (v <=? 0)%float then (0%float, parser_error p (msg_log D))
      else (log v, p)
  | TOKEN_EXP => (exp v, p)
  | _ => (fabs v, p)
  end.

Definition is_function (t : TokenType) : bool :=
  match t with
  | TOKEN_SIN | TOKEN_COS | TOKEN_TAN | TOKEN_SQRT | TOKEN_LOG
  | TOKEN_EXP | TOKEN_ABS => true
  | _ => false
  end.

(* ================================================================= *)
(** ** evaluate *)

(** What [evaluate] hands to its caller: the value, or the message (the C
    function then returns 0). *)
Inductive Outcome : Set :=
| Value (v : float)
| Failure (message : string).

Definition evaluate_with (fuel : nat) (expression : string)
  : option Outcome :=
  let parser := parser_init (lexer_init expression) in
  call (result, parser) <- parse_expression fuel parser;
  let parser :=
    if negb (has_error parser)
       && negb (type_eqb (current_type parser) TOKEN_EOF)
    then parser_error parser (msg_extra D)
    else parser in
  if has_error parser then Some (Failure (error parser))
  else Some (Value result).

(** Fuel that is enough for every text of that length. *)
Definition enough_fuel (expression : string) : nat :=
  10 * (String.length expression + 2).

Definition evaluate (expression : string) : option Outcome :=
  evaluate_with (enough_fuel expression) expression.

End Core.

Arguments evaluate {M} D expression.
Arguments evaluate_with {M} D fuel expression.

(* ================================================================= *)
(** ** A reference C library

    One implementation of [Libm], to run the core on concrete texts.
    [atof] rounds the decimal it reads to the nearest double, [sqrt] and
    [fabs] are the IEEE operations, [fmod] is exact, [pow] multiplies
    repeatedly for a small non-negative integral exponent (exact whenever
    the power is a double), and the transcendental functions are partial
    sums of their series.  No theorem about every [Libm] depends on it. *)

Module Reference.

(** Leading decimal digits of [s], accumulated onto [acc]: their value,
    how many there were, and the rest of the text. *)
Fixpoint read_digits (s : string) (acc : Z) (count : nat)
  : Z * nat * string :=
  match s with
  | String c s' =>
      if isdigit c
      then read_digits s' (10 * acc + Z.of_nat (nat_of_ascii c - 48))%Z
                       (S count)
      else (acc, count, s)
  | EmptyString => (acc, count, s)
  end.

(** The double nearest to [n / d], for [0 <= n] and [0 < d]. *)
Definition nearest_ratio (n d : Z) : float :=
  match n, d with
  | Zpos pn, Zpos pd =>
      SF2Prim (SFdiv prec emax (S754_finite false pn 0)
                                (S754_finite false pd 0))
  | _, _ => 0%float
  end.

Definition atof (s : string) : float :=
  let '(n, _, rest) := read_digits s 0%Z 0 in
  match rest with
  | String c rest' =>
      if Ascii.eqb c "."
      then let '(m, k, _) := read_digits rest' n 0 in
           nearest_ratio m (10 ^ Z.of_nat k)
      else nearest_ratio n 1
  | EmptyString => nearest_ratio n 1
  end.

Definition fmod (x y : float) : float :=
  match Prim2SF x, Prim2SF y with
  | S754_nan, _ | _, S754_nan => nan
  | S754_infinity _, _ | _, S754_zero _ => nan
  | S754_zero _, _ | _, S754_infinity _ => x
  | S754_finite sx mx ex, S754_finite _ my ey =>
      let e := Z.min ex ey in
      let r := ((Zpos mx * 2 ^ (ex - e)) mod (Zpos my * 2 ^ (ey - e)))%Z in
      SF2Prim (binary_normalize prec emax (if sx then - r else r)%Z e sx)
  end.

Fixpoint power_nat (x : float) (n : nat) : float :=
  match n with
  | 0 => 1%float
  | S k => (x * power_nat x k)%float
  end.

Fixpoint sin_series (n : nat) (k term acc x2 : float) : float :=
  match n with
  | 0 => acc
  | S n' =>
      let term' := (- term * x2 / ((k + 1) * (k + 2)))%float in
      sin_series n' (k + 2)%float term' (acc + term')%float x2
  end.

Definition sin (x : float) : float := sin_series 40 1 x x (x * x)%float.
Definition cos (x : float) : float := sin_series 40 0 1 1 (x * x)%float.
Definition tan (x : float) : float := (sin x / cos x)%float.

Fixpoint exp_series (n : nat) (k term acc x : float) : float :=
  match n with
  | 0 => acc
  | S n' =>
      let term' := (term * x / k)%float in
      exp_series n' (k + 1)%float term' (acc + term')%float x
  end.

(** [ln 2] as a double. *)
Definition LN2 : float := 0x1.62e42fefa39efp-1%float.

(** The integer a double with an integral value denotes. *)
Definition integral_value (k : float) : Z :=
  match Prim2SF k with
  | S754_finite s m e =>
      let v := if (0 <=? e)%Z then (Zpos m * 2 ^ e)%Z
               else (Zpos m / 2 ^ (- e))%Z in
      if s then (- v)%Z else v
  | _ => 0%Z
  end.

(** [exp x = 2^k * exp r] with [x = k * ln 2 + r]. *)
Definition exp (x : float) : float :=
  if is_nan x then nan
  else if (x <? -800)%float then 0%float
  else if (800 <? x)%float then infinity
  else
    let k := ((x / LN2 + 0x1.8p52) - 0x1.8p52)%float in
    let r := (x - k * LN2)%float in
    Z.ldexp (exp_series 30 1 1 1 r) (integral_value k).

Fixpoint atanh_series (n : nat) (k power acc z2 : float) : float :=
  match n with
  | 0 => acc
  | S n' =>
      let power' := (power * z2)%float in
      atanh_series n' (k + 2)%float power' (acc + power' / (k + 2))%float z2
  end.

(** [log x = e * ln 2 + 2 * atanh ((m - 1) / (m + 1))] with [x = m * 2^e],
    [1 <= m < 2]. *)
Definition log (x : float) : float :=
  if is_nan x || (x <? 0)%float then nan
  else if (x =? 0)%float then neg_infinity
  else if is_infinity x then infinity
  else
    let (h, e) := Z.frexp x in
    let m := (2 * h)%float in
    let z := ((m - 1) / (m + 1))%float in
    (of_uint63 (Uint63Axioms.of_Z (Z.abs (e - 1)))
       * (if (e - 1 <? 0)%Z then - LN2 else LN2)
     + 2 * atanh_series 40 1 z z (z * z))%float.

(** [y] as a natural number below 1024, when it is one. *)
Definition small_nat (y : float) : option nat :=
  match Prim2SF y with
  | S754_zero _ => Some 0
  | S754_finite false m e =>
      let v := (Zpos m * 2 ^ e)%Z in
      if (0 <=? e)%Z && (v <? 1024)%Z then Some (Z.to_nat v)
      else if (e <? 0)%Z && (Zpos m mod 2 ^ (- e) =? 0)%Z
              && (Zpos m / 2 ^ (- e) <? 1024)%Z
           then Some (Z.to_nat (Zpos m / 2 ^ (- e)))
           else None
  | _ => None
  end.

Definition pow (x y : float) : float :=
  match small_nat y with
  | Some n => power_nat x n
  | None => exp (y * log x)%float
  end.

Definition libm : Libm :=
  Build_Libm atof sin cos tan PrimFloat.sqrt log exp PrimFloat.abs pow fmod.

End Reference.


(* ================================================================= *)
(** ** What is left to read *)

(** The characters not yet consumed, and one more while the current token
    is not the end of the input.  Every [lexer_advance] the parser performs
    makes it smaller. *)
Definition pending (p : Parser) : nat :=
  String.length (remaining (lexer p))
  + (if type_eqb (current_type p) TOKEN_EOF then 0 else 1).

(** The tokens [parse_primary] accepts. *)
Definition starts_primary (t : TokenType) : bool :=
  match t with
  | TOKEN_NUMBER | TOKEN_PI | TOKEN_E | TOKEN_LPAREN => true
  | _ => false
  end.

(** A text of white space only. *)
Fixpoint blank (s : string) : bool :=
  match s with
  | EmptyString => true
  | String c s' => isspace c && blank s'
  end.

(* ================================================================= *)
(** ** Number tokens, as the documents describe them *)

(** Where a number may begin: at a digit, or at a point that a digit
    follows. *)
Definition starts_number (s : string) : bool :=
  isdigit (peek s) || (Ascii.eqb (peek s) "." && isdigit (peek (drop 1 s))).

(** The length of the longest prefix of [s] made of digits, then, if a
    point follows them, of that point and the digits after it. *)
Definition number_extent (s : string) : nat :=
  let d := span isdigit s in
  if Ascii.eqb (peek (drop d s)) "." then d + 1 + span isdigit (drop (d + 1) s)
  else d.

(** The pattern of the specification, [[0-9]+(\.[0-9]+)?], on a whole
    text. *)
Definition number_pattern (s : string) : bool :=
  let d := span isdigit s in
  (1 <=? d)
  && match drop d s with
     | EmptyString => true
     | String c s' =>
         Ascii.eqb c "."
         && (1 <=? span isdigit s')
         && (span isdigit s' =? String.length s')
     end.

(* ================================================================= *)
(** ** The token stream of a text *)

(** What the parser reads of a token: its kind and its number. *)
Definition lexeme : Set := TokenType * float.

Definition lexeme_of (t : Token) : lexeme := (type t, value t).

(** The kind of the first of a list of lexemes. *)
Definition next_type (ts : list lexeme) : TokenType :=
  match ts with
  | (t, _) :: _ => t
  | [] => TOKEN_EOF
  end.

Section Streams.

Context {M : Libm}.
Variable D : Dialect.

(** The current token, then those that [lexer_advance] produces one after
    the other, up to the end of the input. *)
Fixpoint token_stream (fuel : nat) (l : Lexer) : list Token :=
  match fuel with
  | 0 => []
  | S n =>
      current l ::
      (if type_eqb (type (current l)) TOKEN_EOF then []
       else token_stream n (lexer_advance D l))
  end.

(** All the tokens of a text; each but the last consumes a character. *)
Definition tokenize (s : string) : list Token :=
  token_stream (S (String.length s)) (lexer_advance D (lexer_init s)).

Definition lexemes (s : string) : list lexeme := map lexeme_of (tokenize s).

(** [Reads l ts]: from the lexer state [l], the parser would see exactly
    the lexemes [ts], the last of them the end of the input. *)
Inductive Reads : Lexer -> list lexeme -> Prop :=
| Reads_end l :
    type (current l) = TOKEN_EOF ->
    Reads l [lexeme_of (current l)]
| Reads_token l ts :
    type (current l) <> TOKEN_EOF ->
    Reads (lexer_advance D l) ts ->
    Reads l (lexeme_of (current l) :: ts).

End Streams.

(* ================================================================= *)
(** ** The grammar of the specification

    The reference against which the parser is checked: the syntax trees of
    the grammar of the specification, rule by rule, the tokens a tree is
    written with, and its value by the usual reading: operands first, a
    chain of equal precedence from left to right, [^] from right to left.
    [None] is a division or modulo by zero or a function outside its
    domain. *)

Module Grammar.

Inductive function_name : Set := Sin | Cos | Tan | Sqrt | Log | Exp | Abs.

Inductive primary : Set :=
| Number (v : float)
| Pi
| E
| Paren (e : expression)
with unary : Set :=
| Negate (u : unary)
| Plus (u : unary)
| Apply (f : function_name) (a : primary)
| Primary (a : primary)
with power : Set :=
| Unary (u : unary)
| Raise (u : unary) (pw : power)
with factor : Set :=
| Factor (pw : power) (more : adjacent)
with adjacent : Set :=
| NoAdjacent
| Adjacent (pw : power) (more : adjacent)
with term : Set :=
| Term (f : factor) (more : term_tail)
with term_tail : Set :=
| TermEnd
| Times (f : factor) (more : term_tail)
| Over (f : factor) (more : term_tail)
| Modulo (f : factor) (more : term_tail)
with expression : Set :=
| Expression (t : term) (more : expression_tail)
with expression_tail : Set :=
| ExpressionEnd
| Add (t : term) (more : expression_tail)
| Subtract (t : term) (more : expression_tail).

(** Induction on the nine kinds of tree at once. *)
Scheme primary_mut := Induction for primary Sort Prop
  with unary_mut := Induction for unary Sort Prop
  with power_mut := Induction for power Sort Prop
  with factor_mut := Induction for factor Sort Prop
  with adjacent_mut := Induction for adjacent Sort Prop
  with term_mut := Induction for term Sort Prop
  with term_tail_mut := Induction for term_tail Sort Prop
  with expression_mut := Induction for expression Sort Prop
  with expression_tail_mut := Induction for expression_tail Sort Prop.

Combined Scheme grammar_mutind from primary_mut, unary_mut, power_mut,
  factor_mut, adjacent_mut, term_mut, term_tail_mut, expression_mut,
  expression_tail_mut.

Definition function_token (f : function_name) : TokenType :=
  match f with
  | Sin => TOKEN_SIN
  | Cos => TOKEN_COS
  | Tan => TOKEN_TAN
  | Sqrt => TOKEN_SQRT
  | Log => TOKEN_LOG
  | Exp => TOKEN_EXP
  | Abs => TOKEN_ABS
  end.

(** A token without a number carries 0. *)
Definition sign (t : TokenType) : lexeme := (t, 0%float).

(** The tokens a tree is written with. *)
Fixpoint render_primary (a : primary) : list lexeme :=
  match a with
  | Number v => [(TOKEN_NUMBER, v)]
  | Pi => [(TOKEN_PI, M_PI)]
  | E => [(TOKEN_E, M_E)]
  | Paren e => sign TOKEN_LPAREN :: render_expression e ++ [sign TOKEN_RPAREN]
  end
with render_unary (u : unary) : list lexeme :=
  match u with
  | Negate u' => sign TOKEN_MINUS :: render_unary u'
  | Plus u' => sign TOKEN_PLUS :: render_unary u'
  | Apply f a => sign (function_token f) :: render_primary a
  | Primary a => render_primary a
  end
with render_power (pw : power) : list lexeme :=
  match pw with
  | Unary u => render_unary u
  | Raise u pw' => render_unary u ++ sign TOKEN_POWER :: render_power pw'
  end
with render_factor (f : factor) : list lexeme :=
  match f with
  | Factor pw more => render_power pw ++ render_adjacent more
  end
with render_adjacent (js : adjacent) : list lexeme :=
  match js with
  | NoAdjacent => []
  | Adjacent pw more => render_power pw ++ render_adjacent more
  end
with render_term (t : term) : list lexeme :=
  match t with
  | Term f more => render_factor f ++ render_term_tail more
  end
with render_term_tail (tt : term_tail) : list lexeme :=
  match tt with
  | TermEnd => []
  | Times f more =>
      sign TOKEN_MULTIPLY :: render_factor f ++ render_term_tail more
  | Over f more =>
      sign TOKEN_DIVIDE :: render_factor f ++ render_term_tail more
  | Modulo f more =>
      sign TOKEN_MODULO :: render_factor f ++ render_term_tail more
  end
with render_expression (e : expression) : list lexeme :=
  match e with
  | Expression t more => render_term t ++ render_expression_tail more
  end
with render_expression_tail (et : expression_tail) : list lexeme :=
  match et with
  | ExpressionEnd => []
  | Add t more =>
      sign TOKEN_PLUS :: render_term t ++ render_expression_tail more
  | Subtract t more =>
      sign TOKEN_MINUS :: render_term t ++ render_expression_tail more
  end.

(** A power that can follow another without an operator between them: one
    that begins with a number, a constant, a parenthesis or a function
    name. *)
Definition juxtaposable (pw : power) : bool :=
  match pw with
  | Unary (Negate _) | Unary (Plus _)
  | Raise (Negate _) _ | Raise (Plus _) _ => false
  | _ => true
  end.

(** The trees of a dialect: adjacent powers only where multiplication may
    be implicit. *)
Fixpoint valid_primary (implicit : bool) (a : primary) : bool :=
  match a with
  | Paren e => valid_expression implicit e
  | _ => true
  end
with valid_unary (implicit : bool) (u : unary) : bool :=
  match u with
  | Negate u' | Plus u' => valid_unary implicit u'
  | Apply _ a | Primary a => valid_primary implicit a
  end
with valid_power (implicit : bool) (pw : power) : bool :=
  match pw with
  | Unary u => valid_unary implicit u
  | Raise u pw' => valid_unary implicit u && valid_power implicit pw'
  end
with valid_factor (implicit : bool) (f : factor) : bool :=
  match f with
  | Factor pw more => valid_power implicit pw && valid_adjacent implicit more
  end
with valid_adjacent (implicit : bool) (js : adjacent) : bool :=
  match js with
  | NoAdjacent => true
  | Adjacent pw more =>
      implicit && juxtaposable pw
      && valid_power implicit pw && valid_adjacent implicit more
  end
with valid_term (implicit : bool) (t : term) : bool :=
  match t with
  | Term f more => valid_factor implicit f && valid_term_tail implicit more
  end
with valid_term_tail (implicit : bool) (tt : term_tail) : bool :=
  match tt with
  | TermEnd => true
  | Times f more | Over f more | Modulo f more =>
      valid_factor implicit f && valid_term_tail implicit more
  end
with valid_expression (implicit : bool) (e : expression) : bool :=
  match e with
  | Expression t more =>
      valid_term implicit t && valid_expression_tail implicit more
  end
with valid_expression_tail (implicit : bool) (et : expression_tail) : bool :=
  match et with
  | ExpressionEnd => true
  | Add t more | Subtract t more =>
      valid_term implicit t && valid_expression_tail implicit more
  end.

Section Values.

Context {M : Libm}.

Definition bind {A B : Type} (o : option A) (k : A -> option B) : option B :=
  match o with
  | Some x => k x
  | None => None
  end.

(** A function applied to a value of its domain. *)
Definition apply (f : function_name) (x : float) : option float :=
  match f with
  | Sin => Some (sin x)
  | Cos => Some (cos x)
  | Tan => Some (tan x)
  | Sqrt => if (x <? 0)%float then None else Some (sqrt x)
  | Log => if (x <=? 0)%float then None else Some (log x)
  | Exp => Some (exp x)
  | Abs => Some (fabs x)
  end.

Definition divide (x y : float) : option float :=
  if (y =? 0)%float then None else Some (x / y)%float.

Definition modulo (x y : float) : option float :=
  if (y =? 0)%float then None else Some (fmod x y).

Fixpoint value_primary (a : primary) : option float :=
  match a with
  | Number v => Some v
  | Pi => Some M_PI
  | E => Some M_E
  | Paren e => value_expression e
  end
with value_unary (u : unary) : option float :=
  match u with
  | Negate u' => bind (value_unary u') (fun x => Some (- x)%float)
  | Plus u' => value_unary u'
  | Apply f a => bind (value_primary a) (apply f)
  | Primary a => value_primary a
  end
with value_power (pw : power) : option float :=
  match pw with
  | Unary u => value_unary u
  | Raise u pw' =>
      bind (value_unary u) (fun x =>
      bind (value_power pw') (fun y => Some (pow x y)))
  end
with value_factor (f : factor) : option float :=
  match f with
  | Factor pw more => bind (value_power pw) (fun x => value_adjacent x more)
  end
with value_adjacent (left : float) (js : adjacent) : option float :=
  match js with
  | NoAdjacent => Some left
  | Adjacent pw more =>
      bind (value_power pw) (fun y => value_adjacent (left * y)%float more)
  end
with value_term (t : term) : option float :=
  match t with
  | Term f more => bind (value_factor f) (fun x => value_term_tail x more)
  end
with value_term_tail (left : float) (tt : term_tail) : option float :=
  match tt with
  | TermEnd => Some left
  | Times f more =>
      bind (value_factor f) (fun y => value_term_tail (left * y)%float more)
  | Over f more =>
      bind (value_factor f) (fun y =>
      bind (divide left y) (fun q => value_term_tail q more))
  | Modulo f more =>
      bind (value_factor f) (fun y =>
      bind (modulo left y) (fun r => value_term_tail r more))
  end
with value_expression (e : expression) : option float :=
  match e with
  | Expression t more =>
      bind (value_term t) (fun x => value_expression_tail x more)
  end
with value_expression_tail (left : float) (et : expression_tail)
  : option float :=
  match et with
  | ExpressionEnd => Some left
  | Add t more =>
      bind (value_term t) (fun y => value_expression_tail (left + y)%float more)
  | Subtract t more =>
      bind (value_term t) (fun y => value_expression_tail (left - y)%float more)
  end.

End Values.

End Grammar.

(** The tokens a rule must not meet after what it has read, lest it read
    on. *)
Definition ends_power (t : TokenType) : bool :=
  negb (type_eqb t TOKEN_POWER).

Definition ends_factor (t : TokenType) : bool :=
  ends_power t && negb (starts_operand t).

Definition ends_term (t : TokenType) : bool :=
  ends_factor t
  && negb (type_eqb t TOKEN_MULTIPLY) && negb (type_eqb t TOKEN_DIVIDE)
  && negb (type_eqb t TOKEN_MODULO).

Definition ends_expression (t : TokenType) : bool :=
  ends_term t && negb (type_eqb t TOKEN_PLUS) && negb (type_eqb t TOKEN_MINUS).

(** [returns f p r]: with enough fuel, [f] returns [r] on [p]. *)
Definition returns (f : nat -> Parser -> option (float * Parser))
  (p : Parser) (r : float * Parser) : Prop :=
  exists n0, forall m, n0 <= m -> f m p = Some r.

Section Yields.

Context {M : Libm}.
Variable D : Dialect.

(** [yields f p v rest]: called on [p] with enough fuel, the rule [f]
    returns [v] without recording an error, and leaves a parser about to
    read [rest]. *)
Definition yields (f : nat -> Parser -> option (float * Parser))
  (p : Parser) (v : float) (rest : list lexeme) : Prop :=
  exists p' n0,
    (forall n, n0 <= n -> f n p = Some (v, p'))
    /\ has_error p' = false
    /\ error p' = error p
    /\ Reads D (lexer p') rest.

End Yields.

(* ================================================================= *)
(** ** Texts used as examples *)


Module Examples.

Import Grammar.

(** A number as a factor, a term and an expression of its own. *)
Definition literal (v : float) : factor :=
  Factor (Unary (Primary (Number v))) NoAdjacent.

Definition only_factor (f : factor) : expression :=
  Expression (Term f TermEnd) ExpressionEnd.




(** The tree of [2 + 3 * 4]. *)
Definition sum_tree : expression :=
  Expression (Term (literal 2) TermEnd)
             (Add (Term (literal 3) (Times (literal 4) TermEnd))
                  ExpressionEnd).

(** The tree of [(2 + 3) * 4]. *)
Definition grouped_tree : expression :=
  Expression
    (Term (Factor
             (Unary (Primary (Paren
                (Expression (Term (literal 2) TermEnd)
                            (Add (Term (literal 3) TermEnd)
                                 ExpressionEnd)))))
             NoAdjacent)
          (Times (literal 4) TermEnd))
    ExpressionEnd.

(** The primary [(3+4)]. *)
Definition seven : primary :=
  Paren (Expression (Term (literal 3) TermEnd)
                    (Add (Term (literal 4) TermEnd) ExpressionEnd)).


End Examples.

(* ================================================================= *)
(** ** Parsers that read the same tokens *)

Section Views.

Context {M : Libm}.
Variable D : Dialect.

(** Two lexer states from which [lexer_advance] produces the same tokens,
    however far one goes. *)
Definition same_tokens (l1 l2 : Lexer) : Prop :=
  forall n, token_stream D n l1 = token_stream D n l2.

(** Two parsers that differ at most in the text behind the tokens. *)
Definition alike (p1 p2 : Parser) : Prop :=
  same_tokens (lexer p1) (lexer p2)
  /\ error p1 = error p2
  /\ has_error p1 = has_error p2.

(** [lexer_next_token] past the white space, as a function of the text [w]
    that is left there: the token, and how many characters it takes. *)
Definition scan (w : string) : Token * nat :=
  let c := peek w in
  if is_nul c then (mkToken TOKEN_EOF 0 "", 0)
  else if isdigit c || (Ascii.eqb c "." && isdigit (peek (drop 1 w)))
  then let k := number_span false w in
       let txt := strncpy w (token_len k) in
       ({| type := TOKEN_NUMBER; value := atof txt; text := txt |}, k)
  else if isalpha c
  then let k := span isalpha w in
       (keyword D (strncpy w (token_len k)), k)
  else (punctuation D c, 1).

End Views.

(** [s] without its leading white space. *)
Definition trim (s : string) : string := drop (span isspace s) s.

(** Two texts that differ at most in the white space before their first
    token and after their last. *)
Definition same_but_space (r1 r2 : string) : Prop :=
  exists b, blank b = true /\ trim r1 = trim (r2 ++ b).

(** The tokens with which an expression may begin. *)
Definition starts_expression (t : TokenType) : bool :=
  starts_operand t || type_eqb t TOKEN_MINUS || type_eqb t TOKEN_PLUS.

(** The message [parse_primary] records for a token that is no primary. *)
Definition rejection (D : Dialect) (t : Token) : string :=
  match type t with
  | TOKEN_EOF => msg_end D
  | TOKEN_ERROR => text t
  | _ => msg_unexpected_token D ++ text t
  end.

(** [forward p p']: from [p] to [p'] the text is the same and the position
    has not gone back, nor left the text if it was within. *)
Definition forward (p p' : Parser) : Prop :=
  input (lexer p') = input (lexer p)
  /\ position (lexer p) <= position (lexer p')
  /\ (position (lexer p) <= String.length (input (lexer p)) ->
      position (lexer p') <= String.length (input (lexer p))).

(** The words of the language. *)
Definition words : list string :=
  ["sin"; "cos"; "tan"; "sqrt"; "log"; "exp"; "abs"; "pi"; "e"].

(* ================================================================= *)
(** ** What [evaluate] returns in C *)

Section EvaluateC.

Context {M : Libm}.

(** The [double] that [evaluate] returns and the message it leaves in
    [error_msg] (calculator_tui.c, calculator_mac.m): the result and the
    empty text, or 0 and the message of the parser. *)
Definition evaluate_c (D : Dialect) (expression : string) : float * string :=
  match evaluate D expression with
  | Some (Value v) => (v, "")
  | Some (Failure m) => (0%float, m)
  | None => (0%float, "")
  end.

End EvaluateC.

(* ================================================================= *)
(** ** calculator_tui.c: the history and the line editor *)

Module Tui.

Definition MAX_EXPR_LEN : Z := 1024.
Definition MAX_HISTORY : Z := 10.

(** [a[i]] and [a[i] = x] on an array of C; the code never indexes outside
    the array ([history_in_bounds]), where these leave it alone. *)
Definition load {A : Type} (d : A) (a : list A) (i : Z) : A :=
  nth (Z.to_nat i) a d.

Fixpoint store_nat {A : Type} (a : list A) (i : nat) (x : A) : list A :=
  match a, i with
  | [], _ => []
  | _ :: t, 0 => x :: t
  | h :: t, S k => h :: store_nat t k x
  end.

Definition store {A : Type} (a : list A) (i : Z) (x : A) : list A :=
  if (i <? 0)%Z then a else store_nat a (Z.to_nat i) x.

Record History : Type := mkHistory {
  expressions : list string;
  results : list float;
  errors : list Z;
  count : Z;
  current : Z
}.

(** [History history = {0}]. *)
Definition history0 : History :=
  {| expressions := repeat "" 10; results := repeat 0%float 10;
     errors := repeat 0%Z 10; count := 0; current := 0 |}.

(** The body of the loop of [add_to_history]: entry [i + 1] goes to
    [i]. *)
Definition move_down (h : History) (i : Z) : History :=
  {| expressions := store (expressions h) i (load "" (expressions h) (i + 1));
     results := store (results h) i (load 0%float (results h) (i + 1));
     errors := store (errors h) i (load 0%Z (errors h) (i + 1));
     count := count h; current := current h |}.

(** [for (int i = 0; i < MAX_HISTORY - 1; i++) ...], from [i] on. *)
Fixpoint move_all_down (fuel : nat) (h : History) (i : Z) : History :=
  match fuel with
  | 0 => h
  | S k =>
      if (i <? MAX_HISTORY - 1)%Z then move_all_down k (move_down h i) (i + 1)
      else h
  end.

Definition put (h : History) (i : Z) (expr : string) (result : float)
  (error : Z) : History :=
  {| expressions := store (expressions h) i expr;
     results := store (results h) i result;
     errors := store (errors h) i error;
     count := count h; current := current h |}.

Definition add_to_history (expr : string) (result : float) (error : Z)
  (h : History) : History :=
  let h1 :=
    if (count h <? MAX_HISTORY)%Z
    then let h' := put h (count h) expr result error in
         {| expressions := expressions h'; results := results h';
            errors := errors h'; count := count h + 1;
            current := current h |}
    else put (move_all_down (Z.to_nat MAX_HISTORY) h 0)
             (MAX_HISTORY - 1) expr result error in
  {| expressions := expressions h1; results := results h1;
     errors := errors h1; count := count h1; current := count h1 |}.

(** The globals of calculator_tui.c. *)
Record State : Type := mkState {
  history : History;
  current_expr : string;
  cursor_pos : Z
}.

Definition state0 : State :=
  {| history := history0; current_expr := ""; cursor_pos := 0 |}.

Definition strlen (s : string) : Z := Z.of_nat (String.length s).

(** [memmove(&s[i + 1], &s[i], strlen(s) - i + 1); s[i] = c]. *)
Definition insert_char (s : string) (i : Z) (c : ascii) : string :=
  substring 0 (Z.to_nat i) s ++ String c (drop (Z.to_nat i) s).

(** [memmove(&s[i - 1], &s[i], strlen(s) - i + 1)]. *)
Definition delete_char (s : string) (i : Z) : string :=
  substring 0 (Z.to_nat (i - 1)) s ++ drop (Z.to_nat i) s.

(** [current_expr[0] = 0; cursor_pos = 0]. *)
Definition clear_line (st : State) : State :=
  {| history := history st; current_expr := ""; cursor_pos := 0 |}.

(** [strcpy(current_expr, history.expressions[history.current]);
    cursor_pos = strlen(current_expr)], with [history.current] set to
    [i]. *)
Definition recall (st : State) (i : Z) : State :=
  let h := history st in
  let e := load "" (expressions h) i in
  {| history := {| expressions := expressions h; results := results h;
                   errors := errors h; count := count h; current := i |};
     current_expr := e; cursor_pos := strlen e |}.

(** The four arrows: the byte after [ESC \[]. *)
Definition arrow (k : ascii) (st : State) : State :=
  let h := history st in
  if Ascii.eqb k "A" then
    if (0 <? current h)%Z then recall st (current h - 1) else st
  else if Ascii.eqb k "B" then
    if (current h <? count h - 1)%Z then recall st (current h + 1)
    else if (current h =? count h - 1)%Z
    then {| history := {| expressions := expressions h;
                          results := results h; errors := errors h;
                          count := count h; current := count h |};
            current_expr := ""; cursor_pos := 0 |}
    else st
  else if Ascii.eqb k "C" then
    if (cursor_pos st <? strlen (current_expr st))%Z
    then {| history := h; current_expr := current_expr st;
            cursor_pos := cursor_pos st + 1 |}
    else st
  else if Ascii.eqb k "D" then
    if (0 <? cursor_pos st)%Z
    then {| history := h; current_expr := current_expr st;
            cursor_pos := cursor_pos st - 1 |}
    else st
  else st.

Section Keys.

Context {M : Libm}.

(** [error_msg[0] != 0]. *)
Definition is_error (error_msg : string) : Z :=
  if is_nul (peek error_msg) then 0 else 1.

(** A byte that is neither Ctrl-D nor ESC. *)
Definition key (c : ascii) (st : State) : State :=
  let n := nat_of_ascii c in
  if (n =? 10) || (n =? 13) then
    if (0 <? strlen (current_expr st))%Z
    then let (result, error_msg) := evaluate_c tui (current_expr st) in
         {| history := add_to_history (current_expr st) result
                         (is_error error_msg) (history st);
            current_expr := ""; cursor_pos := 0 |}
    else st
  else if (n =? 127) || (n =? 8) then
    if (0 <? cursor_pos st)%Z
    then {| history := history st;
            current_expr := delete_char (current_expr st) (cursor_pos st);
            cursor_pos := cursor_pos st - 1 |}
    else st
  else if (32 <=? n) && (n <? 127) then
    if (strlen (current_expr st) <? MAX_EXPR_LEN - 1)%Z
    then {| history := history st;
            current_expr := insert_char (current_expr st) (cursor_pos st) c;
            cursor_pos := cursor_pos st + 1 |}
    else st
  else st.

(** The loop of [main] on the bytes of the standard input, without what
    it draws: it ends at Ctrl-D and at the end of the input. *)
Fixpoint run (st : State) (stdin : list ascii) : State :=
  match stdin with
  | [] => st
  | c :: rest =>
      if nat_of_ascii c =? 4 then st
      else if nat_of_ascii c =? 27 then
        match rest with
        | [] => clear_line st
        | s0 :: rest1 =>
            if Ascii.eqb s0 "[" then
              match rest1 with
              | [] => st
              | s1 :: rest2 => run (arrow s1 st) rest2
              end
            else run st rest1
        end
      else run (key c st) rest
  end.

End Keys.

(** The characters the editor accepts. *)
Definition printable (c : ascii) : bool :=
  (32 <=? nat_of_ascii c) && (nat_of_ascii c <? 127).

Fixpoint all_printable (s : string) : bool :=
  match s with
  | EmptyString => true
  | String c s' => printable c && all_printable s'
  end.

(** A text that fits a buffer of [MAX_EXPR_LEN] characters. *)
Definition fits (s : string) : Prop :=
  all_printable s = true /\ (strlen s <= MAX_EXPR_LEN - 1)%Z.

(** The arrays have their ten entries, the counters are within them, and
    every text kept fits its buffer. *)
Definition history_in_bounds (h : History) : Prop :=
  List.length (expressions h) = 10 /\ List.length (results h) = 10
  /\ List.length (errors h) = 10
  /\ (0 <= count h <= MAX_HISTORY)%Z /\ (0 <= current h <= count h)%Z
  /\ Forall fits (expressions h).

Definition in_bounds (st : State) : Prop :=
  history_in_bounds (history st)
  /\ fits (current_expr st)
  /\ (0 <= cursor_pos st <= strlen (current_expr st))%Z.

(** The entries of the history that are in use, oldest first. *)
Definition entries (h : History) : list (string * (float * Z)) :=
  firstn (Z.to_nat (count h))
         (combine (expressions h) (combine (results h) (errors h))).

(** The last ten of a list. *)
Definition last_ten {A : Type} (l : list A) : list A :=
  skipn (List.length l - 10) l.

Definition chars (s : string) : list ascii := list_ascii_of_string s.

End Tui.
(* ================================================================= *)
(** * Properties *)

Section Fuel.

Context {M : Libm}.
Variable D : Dialect.

(** ** One step of each rule *)

Lemma parse_expression_eq n p :
  parse_expression D (S n) p =
  call (left, p1) <- parse_term D n p; expression_loop D n left p1.
Proof. reflexivity. Qed.

Lemma expression_loop_eq n left p :
  expression_loop D (S n) left p =
  if has_error p then Some (left, p)
  else match current_type p with
       | TOKEN_PLUS =>
           call (right, p1) <- parse_term D n (advance D p);
           expression_loop D n (left + right)%float p1
       | TOKEN_MINUS =>
           call (right, p1) <- parse_term D n (advance D p);
           expression_loop D n (left - right)%float p1
       | _ => Some (left, p)
       end.
Proof. reflexivity. Qed.

Lemma parse_term_eq n p :
  parse_term D (S n) p =
  call (left, p1) <- parse_factor D n p; term_loop D n left p1.
Proof. reflexivity. Qed.

Lemma term_loop_eq n left p :
  term_loop D (S n) left p =
  if has_error p then Some (left, p)
  else match current_type p with
       | TOKEN_MULTIPLY =>
           call (right, p1) <- parse_factor D n (advance D p);
           term_loop D n (left * right)%float p1
       | TOKEN_DIVIDE =>
           call (right, p1) <- parse_factor D n (advance D p);
           if (right =? 0)%float
           then Some (0%float, parser_error p1 "Division by zero")
           else term_loop D n (left / right)%float p1
       | TOKEN_MODULO =>
           call (right, p1) <- parse_factor D n (advance D p);
           if (right =? 0)%float
           then Some (0%float, parser_error p1 "Modulo by zero")
           else term_loop D n (fmod left right) p1
       | _ => Some (left, p)
       end.
Proof. reflexivity. Qed.

Lemma parse_factor_eq n p :
  parse_factor D (S n) p =
  if implicit_multiplication D
  then call (left, p1) <- parse_power D n p;
       factor_loop D n left p1
  else parse_power D n p.
Proof. reflexivity. Qed.

Lemma factor_loop_eq n left p :
  factor_loop D (S n) left p =
  if has_error p then Some (left, p)
  else if starts_operand (current_type p)
       then call (right, p1) <- parse_power D n p;
            factor_loop D n (left * right)%float p1
       else Some (left, p).
Proof. reflexivity. Qed.

Lemma parse_power_eq n p :
  parse_power D (S n) p =
  call (left, p1) <- parse_unary D n p;
  if negb (has_error p1) && type_eqb (current_type p1) TOKEN_POWER
  then call (right, p2) <- parse_power D n (advance D p1);
       Some (pow left right, p2)
  else Some (left, p1).
Proof. reflexivity. Qed.

Lemma parse_unary_eq n p :
  parse_unary D (S n) p =
  match current_type p with
  | TOKEN_MINUS =>
      call (v, p1) <- parse_unary D n (advance D p);
      Some ((- v)%float, p1)
  | TOKEN_PLUS => parse_unary D n (advance D p)
  | TOKEN_SIN =>
      call (v, p1) <- parse_primary D n (advance D p);
      Some (sin v, p1)
  | TOKEN_COS =>
      call (v, p1) <- parse_primary D n (advance D p);
      Some (cos v, p1)
  | TOKEN_TAN =>
      call (v, p1) <- parse_primary D n (advance D p);
      Some (tan v, p1)
  | TOKEN_SQRT =>
      call (v, p1) <- parse_primary D n (advance D p);
      if (v <? 0)%float
      then Some (0%float, parser_error p1 (msg_sqrt D))
      else Some (sqrt v, p1)
  | TOKEN_LOG =>
      call (v, p1) <- parse_primary D n (advance D p);
      if (v <=? 0)%float
      then Some (0%float, parser_error p1 (msg_log D))
      else Some (log v, p1)
  | TOKEN_EXP =>
      call (v, p1) <- parse_primary D n (advance D p);
      Some (exp v, p1)
  | TOKEN_ABS =>
      call (v, p1) <- parse_primary D n (advance D p);
      Some (fabs v, p1)
  | _ => parse_primary D n p
  end.
Proof. reflexivity. Qed.

(** The seven function branches of [parse_unary] at once. *)
Lemma parse_unary_function n p :
  is_function (current_type p) = true ->
  parse_unary D (S n) p =
  call (v, p1) <- parse_primary D n (advance D p);
  Some (apply_function D (current_type p) v p1).
Proof.
  intros Hf. rewrite parse_unary_eq. unfold apply_function.
  destruct (current_type p); try discriminate Hf;
    destruct (parse_primary D n (advance D p)) as [[v p1]|];
    try reflexivity;
    match goal with |- context [if ?b then _ else _] => destruct b end;
    reflexivity.
Qed.

(** The last branch of [parse_unary]. *)
Lemma parse_unary_plain n p :
  is_function (current_type p) = false ->
  current_type p <> TOKEN_MINUS -> current_type p <> TOKEN_PLUS ->
  parse_unary D (S n) p = parse_primary D n p.
Proof.
  intros Hf Hm Hp. rewrite parse_unary_eq.
  destruct (current_type p); try discriminate Hf; congruence.
Qed.

Lemma parse_primary_eq n p :
  parse_primary D (S n) p =
  match current_type p with
  | TOKEN_NUMBER | TOKEN_PI | TOKEN_E =>
      Some (value (current (lexer p)), advance D p)
  | TOKEN_LPAREN =>
      call (v, p1) <- parse_expression D n (advance D p);
      if type_eqb (current_type p1) TOKEN_RPAREN
      then Some (v, advance D p1)
      else Some (0%float, parser_error p1 (msg_paren D))
  | TOKEN_EOF => Some (0%float, parser_error p (msg_end D))
  | TOKEN_ERROR => Some (0%float, parser_error p (text (current (lexer p))))
  | _ =>
      Some (0%float,
            parser_error p (msg_unexpected_token D ++ text (current (lexer p))))
  end.
Proof. reflexivity. Qed.

(** ** More fuel never changes a result *)

Lemma fuel_step n :
  (forall p r, parse_expression D n p = Some r ->
               parse_expression D (S n) p = Some r) /\
  (forall l p r, expression_loop D n l p = Some r ->
                 expression_loop D (S n) l p = Some r) /\
  (forall p r, parse_term D n p = Some r ->
               parse_term D (S n) p = Some r) /\
  (forall l p r, term_loop D n l p = Some r ->
                 term_loop D (S n) l p = Some r) /\
  (forall p r, parse_factor D n p = Some r ->
               parse_factor D (S n) p = Some r) /\
  (forall l p r, factor_loop D n l p = Some r ->
                 factor_loop D (S n) l p = Some r) /\
  (forall p r, parse_power D n p = Some r ->
               parse_power D (S n) p = Some r) /\
  (forall p r, parse_unary D n p = Some r ->
               parse_unary D (S n) p = Some r) /\
  (forall p r, parse_primary D n p = Some r ->
               parse_primary D (S n) p = Some r).
Proof.
  induction n as [|n IH].
  - repeat split; intros; discriminate.
  - destruct IH as (He & Hel & Ht & Htl & Hf & Hfl & Hpw & Hu & Hpr).
    repeat split; intros.
    + rewrite parse_expression_eq in *.
      destruct (parse_term D n p) as [[l p1]|] eqn:E; [|discriminate].
      rewrite (Ht _ _ E). auto.
    + rewrite expression_loop_eq in *.
      destruct (has_error p); [assumption|].
      destruct (current_type p); try assumption;
        (destruct (parse_term D n (advance D p)) as [[x p1]|] eqn:E;
         [|discriminate]; rewrite (Ht _ _ E); auto).
    + rewrite parse_term_eq in *.
      destruct (parse_factor D n p) as [[l p1]|] eqn:E; [|discriminate].
      rewrite (Hf _ _ E). auto.
    + rewrite term_loop_eq in *.
      destruct (has_error p); [assumption|].
      destruct (current_type p); try assumption;
        (destruct (parse_factor D n (advance D p)) as [[x p1]|] eqn:E;
         [|discriminate]; rewrite (Hf _ _ E);
         try destruct (x =? 0)%float; auto).
    + rewrite parse_factor_eq in *.
      destruct (implicit_multiplication D); [|auto].
      destruct (parse_power D n p) as [[l p1]|] eqn:E; [|discriminate].
      rewrite (Hpw _ _ E). auto.
    + rewrite factor_loop_eq in *.
      destruct (has_error p); [assumption|].
      destruct (starts_operand (current_type p)); [|assumption].
      destruct (parse_power D n p) as [[x p1]|] eqn:E; [|discriminate].
      rewrite (Hpw _ _ E). auto.
    + rewrite parse_power_eq in *.
      destruct (parse_unary D n p) as [[l p1]|] eqn:E; [|discriminate].
      rewrite (Hu _ _ E).
      destruct (negb (has_error p1) && type_eqb (current_type p1) TOKEN_POWER);
        [|assumption].
      destruct (parse_power D n (advance D p1)) as [[x p2]|] eqn:E2;
        [|discriminate].
      rewrite (Hpw _ _ E2). assumption.
    + rewrite parse_unary_eq in *.
      destruct (current_type p); auto;
        match goal with
        | H : match ?e with Some _ => _ | None => _ end = Some _ |- _ =>
            destruct e as [[x p1]|] eqn:E; [|discriminate]
        end;
        first [rewrite (Hu _ _ E) | rewrite (Hpr _ _ E)]; assumption.
    + rewrite parse_primary_eq in *.
      destruct (current_type p); try assumption.
      destruct (parse_expression D n (advance D p)) as [[x p1]|] eqn:E;
        [|discriminate].
      rewrite (He _ _ E). assumption.
Qed.

Lemma parse_expression_fuel n m p r :
  parse_expression D n p = Some r -> n <= m ->
  parse_expression D m p = Some r.
Proof.
  intros H Hle. induction Hle; [assumption|].
  now apply (fuel_step m).
Qed.

Lemma expression_loop_fuel n m l p r :
  expression_loop D n l p = Some r -> n <= m ->
  expression_loop D m l p = Some r.
Proof.
  intros H Hle. induction Hle; [assumption|].
  now apply (fuel_step m).
Qed.

Lemma parse_term_fuel n m p r :
  parse_term D n p = Some r -> n <= m -> parse_term D m p = Some r.
Proof.
  intros H Hle. induction Hle; [assumption|].
  now apply (fuel_step m).
Qed.

Lemma term_loop_fuel n m l p r :
  term_loop D n l p = Some r -> n <= m -> term_loop D m l p = Some r.
Proof.
  intros H Hle. induction Hle; [assumption|].
  now apply (fuel_step m).
Qed.

Lemma parse_factor_fuel n m p r :
  parse_factor D n p = Some r -> n <= m -> parse_factor D m p = Some r.
Proof.
  intros H Hle. induction Hle; [assumption|].
  now apply (fuel_step m).
Qed.

Lemma factor_loop_fuel n m l p r :
  factor_loop D n l p = Some r -> n <= m -> factor_loop D m l p = Some r.
Proof.
  intros H Hle. induction Hle; [assumption|].
  now apply (fuel_step m).
Qed.

Lemma parse_power_fuel n m p r :
  parse_power D n p = Some r -> n <= m -> parse_power D m p = Some r.
Proof.
  intros H Hle. induction Hle; [assumption|].
  now apply (fuel_step m).
Qed.

Lemma parse_unary_fuel n m p r :
  parse_unary D n p = Some r -> n <= m -> parse_unary D m p = Some r.
Proof.
  intros H Hle. induction Hle; [assumption|].
  now apply (fuel_step m).
Qed.

Lemma parse_primary_fuel n m p r :
  parse_primary D n p = Some r -> n <= m -> parse_primary D m p = Some r.
Proof.
  intros H Hle. induction Hle; [assumption|].
  now apply (fuel_step m).
Qed.

End Fuel.

(* ================================================================= *)
(** ** The lexer only moves forward *)

Lemma drop_length n s : String.length (drop n s) = String.length s - n.
Proof.
  revert s; induction n as [|n IH]; intros s; cbn.
  - lia.
  - destruct s; cbn; auto.
Qed.

Lemma drop_drop a b s : drop b (drop a s) = drop (a + b) s.
Proof.
  revert s; induction a as [|a IH]; intros s; cbn; auto.
  destruct s; cbn; auto. destruct b; reflexivity.
Qed.

Lemma span_le f s : span f s <= String.length s.
Proof.
  induction s as [|c s IH]; cbn; [lia|].
  destruct (negb (is_nul c) && f c); lia.
Qed.

Lemma number_span_le b s : number_span b s <= String.length s.
Proof.
  revert b; induction s as [|c s IH]; intros b; cbn; [lia|].
  destruct (is_nul c); [lia|].
  destruct (isdigit c); [specialize (IH b); lia|].
  destruct (Ascii.eqb c "." && negb b); [specialize (IH true); lia|lia].
Qed.

Lemma remaining_set_position l k :
  remaining (set_position l (position l + k)) = drop k (remaining l).
Proof. unfold remaining; cbn. now rewrite drop_drop. Qed.

Lemma peek_not_nul s :
  is_nul (peek s) = false -> exists c s', s = String c s' /\ is_nul c = false.
Proof.
  destruct s as [|c s']; cbn; [discriminate|]. eauto.
Qed.

Section Lexing.

Context {M : Libm}.
Variable D : Dialect.

Lemma lexer_next_token_input l :
  input (snd (lexer_next_token D l)) = input l.
Proof.
  unfold lexer_next_token.
  repeat match goal with |- context [if ?b then _ else _] => destruct b end;
    reflexivity.
Qed.

(** A token other than the end of the input costs at least one character. *)
Lemma lexer_next_token_progress l :
  let (t, l') := lexer_next_token D l in
  String.length (remaining l') <= String.length (remaining l) /\
  (type t <> TOKEN_EOF ->
   String.length (remaining l') < String.length (remaining l)).
Proof.
  unfold lexer_next_token.
  set (w := lexer_skip_whitespace l).
  assert (Hw : remaining w = drop (span isspace (remaining l)) (remaining l))
    by apply remaining_set_position.
  assert (Hlen : String.length (remaining w) <= String.length (remaining l))
    by (rewrite Hw, drop_length; lia).
  change (char_at (input w) (position w)) with (peek (remaining w)).
  destruct (is_nul (peek (remaining w))) eqn:Hnul.
  { split; [assumption|]. cbn. congruence. }
  destruct (peek_not_nul _ Hnul) as (c & s' & Hs & Hc).
  assert (Hpeek : peek (remaining w) = c) by now rewrite Hs.
  rewrite Hpeek.
  assert (Hpos : 1 <= String.length (remaining w)) by (rewrite Hs; cbn; lia).
  destruct (isdigit c
            || Ascii.eqb c "." && isdigit (char_at (input w) (position w + 1)))
    eqn:Hnum.
  { unfold lexer_read_number. rewrite remaining_set_position, drop_length.
    assert (1 <= number_span false (remaining w)).
    { rewrite Hs; cbn. rewrite Hc.
      destruct (isdigit c); [lia|]. cbn in Hnum.
      apply andb_true_iff in Hnum as [-> _]. cbn. lia. }
    split; intros; lia. }
  destruct (isalpha c) eqn:Halpha.
  { unfold lexer_read_identifier. rewrite remaining_set_position, drop_length.
    assert (1 <= span isalpha (remaining w)).
    { rewrite Hs; cbn. rewrite Hc, Halpha. cbn. lia. }
    split; intros; lia. }
  rewrite remaining_set_position, drop_length. split; intros; lia.
Qed.

Lemma advance_has_error p : has_error (advance D p) = has_error p.
Proof. reflexivity. Qed.

Lemma advance_error p : error (advance D p) = error p.
Proof. reflexivity. Qed.

(** Past a token that is not the end of the input, less is left to read. *)
Lemma advance_pending p :
  current_type p <> TOKEN_EOF -> pending (advance D p) < pending p.
Proof.
  intros Hcur. unfold pending, advance, current_type, lexer_advance in *.
  cbn [lexer].
  pose proof (lexer_next_token_progress (lexer p)) as H.
  destruct (lexer_next_token D (lexer p)) as [t l'].
  destruct H as [Hle Hlt].
  change (remaining {| input := input l'; position := position l';
                       current := t |}) with (remaining l').
  cbn [current]. unfold type_eqb.
  destruct (TokenType_eq_dec (type (current (lexer p))) TOKEN_EOF) as [|_];
    [contradiction|].
  destruct (TokenType_eq_dec (type t) TOKEN_EOF) as [|Ht]; [lia|].
  specialize (Hlt Ht). lia.
Qed.

Lemma parser_error_pending p m : pending (parser_error p m) = pending p.
Proof. reflexivity. Qed.

End Lexing.

(* ================================================================= *)
(** ** Every rule returns *)

Section Termination.

Context {M : Libm}.
Variable D : Dialect.

Lemma starts_operand_not_eof t : starts_operand t = true -> t <> TOKEN_EOF.
Proof. destruct t; cbn; congruence. Qed.

Ltac next_is_less D p :=
  assert (pending (advance D p) < pending p)
    by (apply advance_pending; congruence).

(** With ten units of fuel for each thing left to read, and a few more to
    get from a rule to [parse_primary], a rule returns, and it leaves no
    more to read than it found. *)
Lemma fuel_suffices n :
  (forall p, 10 * pending p + 7 <= n ->
     exists v p', parse_expression D n p = Some (v, p')
                  /\ pending p' <= pending p) /\
  (forall l p, 10 * pending p + 1 <= n ->
     exists v p', expression_loop D n l p = Some (v, p')
                  /\ pending p' <= pending p) /\
  (forall p, 10 * pending p + 6 <= n ->
     exists v p', parse_term D n p = Some (v, p')
                  /\ pending p' <= pending p) /\
  (forall l p, 10 * pending p + 1 <= n ->
     exists v p', term_loop D n l p = Some (v, p')
                  /\ pending p' <= pending p) /\
  (forall p, 10 * pending p + 5 <= n ->
     exists v p', parse_factor D n p = Some (v, p')
                  /\ pending p' <= pending p) /\
  (forall l p, 10 * pending p + 4 <= n ->
     exists v p', factor_loop D n l p = Some (v, p')
                  /\ pending p' <= pending p) /\
  (forall p, 10 * pending p + 3 <= n ->
     exists v p', parse_power D n p = Some (v, p')
                  /\ pending p' <= pending p
                  /\ (starts_operand (current_type p) = true ->
                      pending p' < pending p)) /\
  (forall p, 10 * pending p + 2 <= n ->
     exists v p', parse_unary D n p = Some (v, p')
                  /\ pending p' <= pending p
                  /\ (starts_operand (current_type p) = true ->
                      pending p' < pending p)) /\
  (forall p, 10 * pending p + 1 <= n ->
     exists v p', parse_primary D n p = Some (v, p')
                  /\ pending p' <= pending p
                  /\ (starts_primary (current_type p) = true ->
                      pending p' < pending p)).
Proof.
  induction n as [|n IH].
  { repeat split; intros; lia. }
  destruct IH as (He & Hel & Ht & Htl & Hf & Hfl & Hpw & Hu & Hpr).
  repeat split.
  - (* parse_expression *)
    intros p Hn. rewrite parse_expression_eq.
    destruct (Ht p) as (l & p1 & -> & H1); [lia|].
    destruct (Hel l p1) as (v & p2 & -> & H2); [lia|].
    exists v, p2. split; [reflexivity|lia].
  - (* expression_loop *)
    intros l p Hn. rewrite expression_loop_eq.
    destruct (has_error p); [exists l, p; auto|].
    destruct (current_type p) eqn:Hc; try (exists l, p; auto; fail);
      next_is_less D p;
      (destruct (Ht (advance D p)) as (r & p1 & -> & H1); [lia|]);
      match goal with
      | |- exists _ _, expression_loop D n ?x p1 = _ /\ _ =>
          destruct (Hel x p1) as (v & p2 & -> & H2); [lia|]
      end;
      exists v, p2; (split; [reflexivity|lia]).
  - (* parse_term *)
    intros p Hn. rewrite parse_term_eq.
    destruct (Hf p) as (l & p1 & -> & H1); [lia|].
    destruct (Htl l p1) as (v & p2 & -> & H2); [lia|].
    exists v, p2. split; [reflexivity|lia].
  - (* term_loop *)
    intros l p Hn. rewrite term_loop_eq.
    destruct (has_error p); [exists l, p; auto|].
    destruct (current_type p) eqn:Hc; try (exists l, p; auto; fail);
      next_is_less D p;
      (destruct (Hf (advance D p)) as (r & p1 & -> & H1); [lia|]);
      try (destruct (r =? 0)%float;
           [eexists; eexists; split;
            [reflexivity|rewrite parser_error_pending; lia]|]);
      match goal with
      | |- exists _ _, term_loop D n ?x p1 = _ /\ _ =>
          destruct (Htl x p1) as (v & p2 & -> & H2); [lia|]
      end;
      exists v, p2; (split; [reflexivity|lia]).
  - (* parse_factor *)
    intros p Hn. rewrite parse_factor_eq.
    destruct (implicit_multiplication D).
    + destruct (Hpw p) as (l & p1 & -> & H1 & _); [lia|].
      destruct (Hfl l p1) as (v & p2 & -> & H2); [lia|].
      exists v, p2. split; [reflexivity|lia].
    + destruct (Hpw p) as (v & p1 & -> & H1 & _); [lia|].
      exists v, p1. auto.
  - (* factor_loop *)
    intros l p Hn. rewrite factor_loop_eq.
    destruct (has_error p); [exists l, p; auto|].
    destruct (starts_operand (current_type p)) eqn:Hc; [|exists l, p; auto].
    destruct (Hpw p) as (r & p1 & -> & H1 & Hlt); [lia|].
    specialize (Hlt Hc).
    destruct (Hfl (l * r)%float p1) as (v & p2 & -> & H2); [lia|].
    exists v, p2. split; [reflexivity|lia].
  - (* parse_power *)
    intros p Hn. rewrite parse_power_eq.
    destruct (Hu p) as (l & p1 & -> & H1 & Hlt); [lia|].
    destruct (negb (has_error p1) && type_eqb (current_type p1) TOKEN_POWER)
      eqn:Hpow; [|exists l, p1; auto].
    apply andb_true_iff in Hpow as [_ Hpow]. unfold type_eqb in Hpow.
    destruct (TokenType_eq_dec (current_type p1) TOKEN_POWER) as [Hc|];
      [|discriminate].
    next_is_less D p1.
    destruct (Hpw (advance D p1)) as (r & p2 & -> & H2 & _); [lia|].
    exists (pow l r), p2. split; [reflexivity|]. split; intros; lia.
  - (* parse_unary *)
    intros p Hn.
    destruct (is_function (current_type p)) eqn:Hfn.
    { rewrite (parse_unary_function D) by assumption.
      assert (Hc : current_type p <> TOKEN_EOF)
        by (intros E; rewrite E in Hfn; discriminate).
      next_is_less D p.
      destruct (Hpr (advance D p)) as (v & p1 & -> & H1 & _); [lia|].
      assert (pending (snd (apply_function D (current_type p) v p1))
              = pending p1).
      { unfold apply_function.
        destruct (current_type p); try reflexivity;
          match goal with |- context [if ?b then _ else _] => destruct b end;
          reflexivity. }
      destruct (apply_function D (current_type p) v p1) as [v' p'].
      cbn [snd] in *. exists v', p'. split; [reflexivity|].
      split; intros; lia. }
    rewrite parse_unary_eq.
    destruct (current_type p) eqn:Hc; try discriminate Hfn;
      try (destruct (Hpr p) as (v & p1 & -> & H1 & Hlt); [lia|];
           rewrite Hc in Hlt; exists v, p1; split; [reflexivity|];
           split; [lia|]; cbn; intros Hs;
           first [discriminate Hs | exact (Hlt Hs)]).
    + (* TOKEN_PLUS *)
      next_is_less D p.
      destruct (Hu (advance D p)) as (v & p1 & -> & H1 & _); [lia|].
      exists v, p1. split; [reflexivity|]. split; intros; lia.
    + (* TOKEN_MINUS *)
      next_is_less D p.
      destruct (Hu (advance D p)) as (v & p1 & -> & H1 & _); [lia|].
      eexists; exists p1. split; [reflexivity|]. split; intros; lia.
  - (* parse_primary *)
    intros p Hn. rewrite parse_primary_eq.
    destruct (current_type p) eqn:Hc;
      try (eexists; eexists; split; [reflexivity|];
           rewrite parser_error_pending; split; [lia|];
           cbn; intros; discriminate);
      try (next_is_less D p; eexists; eexists; split; [reflexivity|];
           split; intros; lia).
    (* TOKEN_LPAREN *)
    next_is_less D p.
    destruct (He (advance D p)) as (v & p1 & -> & H1); [lia|].
    destruct (type_eqb (current_type p1) TOKEN_RPAREN) eqn:Hr.
    + unfold type_eqb in Hr.
      destruct (TokenType_eq_dec (current_type p1) TOKEN_RPAREN) as [Hc1|];
        [|discriminate].
      next_is_less D p1.
      exists v, (advance D p1). split; [reflexivity|]. split; intros; lia.
    + eexists; eexists; split; [reflexivity|].
      rewrite parser_error_pending. split; intros; lia.
Qed.

End Termination.

(* ================================================================= *)
(** ** The parser computes the value of the tree it reads *)

Section Soundness.

Context {M : Libm}.
Variable D : Dialect.

Import Grammar.

Lemma Reads_head l t v ts :
  Reads D l ((t, v) :: ts) -> t <> TOKEN_EOF ->
  type (current l) = t /\ value (current l) = v
  /\ Reads D (lexer_advance D l) ts.
Proof.
  intros H Ht. unfold lexeme_of in H.
  inversion H; subst; [congruence|auto].
Qed.

Lemma Reads_next l ts : Reads D l ts -> type (current l) = next_type ts.
Proof. intros H; inversion H; reflexivity. Qed.

Lemma type_eqb_refl t : type_eqb t t = true.
Proof. unfold type_eqb. destruct (TokenType_eq_dec t t); congruence. Qed.

Lemma type_eqb_eq a b : type_eqb a b = true -> a = b.
Proof. unfold type_eqb. destruct (TokenType_eq_dec a b); congruence. Qed.

Lemma type_eqb_neq a b : type_eqb a b = false -> a <> b.
Proof. unfold type_eqb. destruct (TokenType_eq_dec a b); congruence. Qed.

Lemma juxtaposable_starts pw r :
  juxtaposable pw = true ->
  starts_operand (next_type (render_power pw ++ r)) = true.
Proof.
  destruct pw as [u|u pw]; destruct u as [u'|u'|f a|a]; cbn;
    try discriminate; intros _;
    try (destruct f; reflexivity); destruct a; reflexivity.
Qed.

Lemma ends_factor_power t : ends_factor t = true -> ends_power t = true.
Proof. unfold ends_factor. now intros [H _]%andb_true_iff. Qed.

Lemma ends_term_factor t : ends_term t = true -> ends_factor t = true.
Proof.
  unfold ends_term.
  now intros [[[H _]%andb_true_iff _]%andb_true_iff _]%andb_true_iff.
Qed.

Lemma ends_expression_term t : ends_expression t = true -> ends_term t = true.
Proof.
  unfold ends_expression.
  now intros [[H _]%andb_true_iff _]%andb_true_iff.
Qed.

Lemma starts_operand_ends_power t :
  starts_operand t = true -> ends_power t = true.
Proof. destruct t; cbn; congruence. Qed.

(** After the adjacent powers of a factor, or at their first token, a
    power ends. *)
Lemma adjacent_ends_power js rest :
  valid_adjacent (implicit_multiplication D) js = true ->
  ends_factor (next_type rest) = true ->
  ends_power (next_type (render_adjacent js ++ rest)) = true.
Proof.
  destruct js as [|pw more]; cbn [render_adjacent valid_adjacent].
  - intros _. apply ends_factor_power.
  - intros Hv _. rewrite <- app_assoc. apply starts_operand_ends_power.
    apply juxtaposable_starts.
    now apply andb_true_iff in Hv as [[[_ ?]%andb_true_iff _]%andb_true_iff _].
Qed.

Lemma term_tail_ends_factor tt rest :
  ends_term (next_type rest) = true ->
  ends_factor (next_type (render_term_tail tt ++ rest)) = true.
Proof.
  destruct tt; cbn; auto using ends_term_factor.
Qed.

Lemma expression_tail_ends_term et rest :
  ends_expression (next_type rest) = true ->
  ends_term (next_type (render_expression_tail et ++ rest)) = true.
Proof.
  destruct et; cbn; auto using ends_expression_term.
Qed.

Lemma apply_function_apply f x v p :
  apply f x = Some v -> apply_function D (function_token f) x p = (v, p).
Proof.
  destruct f; cbn; try (intros [= <-]; reflexivity).
  - destruct (x <? 0)%float; [discriminate|]. now intros [= <-].
  - destruct (x <=? 0)%float; [discriminate|]. now intros [= <-].
Qed.

Lemma is_function_token f : is_function (function_token f) = true.
Proof. destruct f; reflexivity. Qed.

Lemma bind_some {A B : Type} (o : option A) (k : A -> option B) (b : B) :
  bind o k = Some b -> exists a, o = Some a /\ k a = Some b.
Proof. destruct o; cbn; [eauto|discriminate]. Qed.

Ltac take_valid H :=
  repeat match type of H with
         | (_ && _) = true => let H' := fresh "Hv" in
                              apply andb_true_iff in H as [H H']
         end.

Ltac take_value H :=
  repeat match type of H with
         | bind _ _ = Some _ =>
             let x := fresh "x" in let Hx := fresh "Hx" in
             apply bind_some in H as (x & Hx & H)
         end.

Ltac read_token H :=
  let Hc := fresh "Hcur" in let Hv := fresh "Hval" in
  apply Reads_head in H as (Hc & Hv & H); [|discriminate].

(** Read as the tokens of a valid tree that has a value, followed by
    tokens at which the rule stops, every rule yields that value. *)
Theorem grammar_sound :
  (forall a v p rest,
     valid_primary (implicit_multiplication D) a = true ->
     value_primary a = Some v ->
     has_error p = false ->
     Reads D (lexer p) (render_primary a ++ rest) ->
     yields D (parse_primary D) p v rest) /\
  (forall u v p rest,
     valid_unary (implicit_multiplication D) u = true ->
     value_unary u = Some v ->
     has_error p = false ->
     Reads D (lexer p) (render_unary u ++ rest) ->
     yields D (parse_unary D) p v rest) /\
  (forall pw v p rest,
     valid_power (implicit_multiplication D) pw = true ->
     value_power pw = Some v ->
     has_error p = false ->
     Reads D (lexer p) (render_power pw ++ rest) ->
     ends_power (next_type rest) = true ->
     yields D (parse_power D) p v rest) /\
  (forall f v p rest,
     valid_factor (implicit_multiplication D) f = true ->
     value_factor f = Some v ->
     has_error p = false ->
     Reads D (lexer p) (render_factor f ++ rest) ->
     ends_factor (next_type rest) = true ->
     yields D (parse_factor D) p v rest) /\
  (forall js left v p rest,
     valid_adjacent (implicit_multiplication D) js = true ->
     value_adjacent left js = Some v ->
     has_error p = false ->
     Reads D (lexer p) (render_adjacent js ++ rest) ->
     ends_factor (next_type rest) = true ->
     yields D (fun n => factor_loop D n left) p v rest) /\
  (forall t v p rest,
     valid_term (implicit_multiplication D) t = true ->
     value_term t = Some v ->
     has_error p = false ->
     Reads D (lexer p) (render_term t ++ rest) ->
     ends_term (next_type rest) = true ->
     yields D (parse_term D) p v rest) /\
  (forall tt left v p rest,
     valid_term_tail (implicit_multiplication D) tt = true ->
     value_term_tail left tt = Some v ->
     has_error p = false ->
     Reads D (lexer p) (render_term_tail tt ++ rest) ->
     ends_term (next_type rest) = true ->
     yields D (fun n => term_loop D n left) p v rest) /\
  (forall e v p rest,
     valid_expression (implicit_multiplication D) e = true ->
     value_expression e = Some v ->
     has_error p = false ->
     Reads D (lexer p) (render_expression e ++ rest) ->
     ends_expression (next_type rest) = true ->
     yields D (parse_expression D) p v rest) /\
  (forall et left v p rest,
     valid_expression_tail (implicit_multiplication D) et = true ->
     value_expression_tail left et = Some v ->
     has_error p = false ->
     Reads D (lexer p) (render_expression_tail et ++ rest) ->
     ends_expression (next_type rest) = true ->
     yields D (fun n => expression_loop D n left) p v rest).
Proof.
  apply grammar_mutind.
  - (* Number *)
    intros x v p rest _ [= <-] Hok Hr. cbn in Hr. read_token Hr.
    exists (advance D p), 1. split; [|auto].
    intros [|n] Hn; [lia|]. rewrite parse_primary_eq.
    unfold current_type. rewrite Hcur, Hval. reflexivity.
  - (* Pi *)
    intros v p rest _ [= <-] Hok Hr. cbn in Hr. read_token Hr.
    exists (advance D p), 1. split; [|auto].
    intros [|n] Hn; [lia|]. rewrite parse_primary_eq.
    unfold current_type. rewrite Hcur, Hval. reflexivity.
  - (* E *)
    intros v p rest _ [= <-] Hok Hr. cbn in Hr. read_token Hr.
    exists (advance D p), 1. split; [|auto].
    intros [|n] Hn; [lia|]. rewrite parse_primary_eq.
    unfold current_type. rewrite Hcur, Hval. reflexivity.
  - (* Paren *)
    intros e IHe v p rest Hv Hx Hok Hr. cbn in Hv, Hx, Hr. read_token Hr.
    rewrite <- app_assoc in Hr.
    destruct (IHe v (advance D p) (sign TOKEN_RPAREN :: rest))
      as (p1 & n1 & E1 & Hok1 & Herr1 & Hr1); auto.
    pose proof (Reads_next _ _ Hr1) as Hc1. cbn in Hc1.
    unfold sign in Hr1. read_token Hr1.
    exists (advance D p1), (S n1). split; [|auto].
    intros [|n] Hn; [lia|]. rewrite parse_primary_eq.
    unfold current_type at 1. rewrite Hcur, E1 by lia.
    unfold current_type. rewrite Hc1. reflexivity.
  - (* Negate *)
    intros u IHu v p rest Hv Hx Hok Hr. cbn in Hv, Hx, Hr.
    take_value Hx. injection Hx as <-. read_token Hr.
    destruct (IHu x (advance D p) rest)
      as (p1 & n1 & E1 & Hok1 & Herr1 & Hr1); auto.
    exists p1, (S n1). split; [|auto].
    intros [|n] Hn; [lia|]. rewrite parse_unary_eq.
    unfold current_type. rewrite Hcur, E1 by lia. reflexivity.
  - (* Plus *)
    intros u IHu v p rest Hv Hx Hok Hr. cbn in Hv, Hx, Hr. read_token Hr.
    destruct (IHu v (advance D p) rest)
      as (p1 & n1 & E1 & Hok1 & Herr1 & Hr1); auto.
    exists p1, (S n1). split; [|auto].
    intros [|n] Hn; [lia|]. rewrite parse_unary_eq.
    unfold current_type. rewrite Hcur, E1 by lia. reflexivity.
  - (* Apply *)
    intros f a IHa v p rest Hv Hx Hok Hr. cbn in Hv, Hx, Hr.
    take_value Hx.
    apply Reads_head in Hr as (Hcur & _ & Hr); [|destruct f; discriminate].
    destruct (IHa x (advance D p) rest)
      as (p1 & n1 & E1 & Hok1 & Herr1 & Hr1); auto.
    exists p1, (S n1). split; [|auto].
    intros [|n] Hn; [lia|].
    rewrite parse_unary_function
      by (unfold current_type; rewrite Hcur; apply is_function_token).
    rewrite E1 by lia. unfold current_type. rewrite Hcur.
    now rewrite (apply_function_apply _ _ _ _ Hx).
  - (* Primary *)
    intros a IHa v p rest Hv Hx Hok Hr. cbn in Hv, Hx, Hr.
    destruct (IHa v p rest) as (p1 & n1 & E1 & Hok1 & Herr1 & Hr1); auto.
    exists p1, (S n1). split; [|auto].
    intros [|n] Hn; [lia|].
    pose proof (Reads_next _ _ Hr) as Hc.
    rewrite parse_unary_plain; [apply E1; lia| | |];
      unfold current_type; rewrite Hc; destruct a; cbn; congruence.
  - (* Unary *)
    intros u IHu v p rest Hv Hx Hok Hr Hend. cbn in Hv, Hx, Hr.
    destruct (IHu v p rest) as (p1 & n1 & E1 & Hok1 & Herr1 & Hr1); auto.
    exists p1, (S n1). split; [|auto].
    intros [|n] Hn; [lia|]. rewrite parse_power_eq, E1 by lia.
    unfold current_type. rewrite (Reads_next _ _ Hr1).
    unfold ends_power in Hend. apply negb_true_iff in Hend.
    rewrite Hend, andb_false_r. reflexivity.
  - (* Raise *)
    intros u IHu pw IHpw v p rest Hv Hx Hok Hr Hend. cbn in Hv, Hx, Hr.
    take_valid Hv. take_value Hx. injection Hx as <-.
    rewrite <- app_assoc in Hr. cbn in Hr.
    destruct (IHu x p (sign TOKEN_POWER :: render_power pw ++ rest)%list)
      as (p1 & n1 & E1 & Hok1 & Herr1 & Hr1); auto.
    pose proof (Reads_next _ _ Hr1) as Hc1. cbn in Hc1.
    unfold sign in Hr1. read_token Hr1.
    destruct (IHpw x0 (advance D p1) rest)
      as (p2 & n2 & E2 & Hok2 & Herr2 & Hr2); auto.
    exists p2, (S (n1 + n2)). split; [|split; [auto|split; [|auto]]].
    + intros [|n] Hn; [lia|]. rewrite parse_power_eq, E1 by lia.
      unfold current_type. rewrite Hok1, Hc1. cbn.
      rewrite E2 by lia. reflexivity.
    + rewrite Herr2. exact Herr1.
  - (* Factor *)
    intros pw IHpw more IHmore v p rest Hv Hx Hok Hr Hend.
    cbn in Hv, Hx, Hr. take_valid Hv. take_value Hx.
    rewrite <- app_assoc in Hr.
    destruct (IHpw x p (render_adjacent more ++ rest)%list)
      as (p1 & n1 & E1 & Hok1 & Herr1 & Hr1);
      auto using adjacent_ends_power.
    destruct (implicit_multiplication D) eqn:Himp.
    + destruct (IHmore x v p1 rest)
        as (p2 & n2 & E2 & Hok2 & Herr2 & Hr2); auto.
      exists p2, (S (n1 + n2)). split; [|split; [auto|split; [|auto]]].
      * intros [|n] Hn; [lia|]. rewrite parse_factor_eq, Himp, E1 by lia.
        apply E2. lia.
      * rewrite Herr2. exact Herr1.
    + destruct more as [|pw2 more2]; [|cbn in Hv0; discriminate Hv0].
      cbn in Hx, Hr1. injection Hx as <-.
      exists p1, (S n1). split; [|auto].
      intros [|n] Hn; [lia|]. rewrite parse_factor_eq, Himp. apply E1. lia.
  - (* NoAdjacent *)
    intros left v p rest _ [= <-] Hok Hr Hend. cbn in Hr.
    exists p, 1. split; [|auto].
    intros [|n] Hn; [lia|]. rewrite factor_loop_eq, Hok.
    unfold current_type. rewrite (Reads_next _ _ Hr).
    unfold ends_factor in Hend. apply andb_true_iff in Hend as [_ Hend].
    apply negb_true_iff in Hend. now rewrite Hend.
  - (* Adjacent *)
    intros pw IHpw more IHmore left v p rest Hv Hx Hok Hr Hend.
    cbn [valid_adjacent] in Hv. cbn in Hx, Hr.
    pose proof (adjacent_ends_power more rest) as Hmore.
    take_valid Hv. take_value Hx.
    rewrite <- app_assoc in Hr.
    pose proof (Reads_next _ _ Hr) as Hc.
    destruct (IHpw x p (render_adjacent more ++ rest)%list)
      as (p1 & n1 & E1 & Hok1 & Herr1 & Hr1); auto.
    destruct (IHmore (left * x)%float v p1 rest)
      as (p2 & n2 & E2 & Hok2 & Herr2 & Hr2); auto.
    exists p2, (S (n1 + n2)). split; [|split; [auto|split; [|auto]]].
    + intros [|n] Hn; [lia|]. rewrite factor_loop_eq, Hok.
      unfold current_type. rewrite Hc, juxtaposable_starts by assumption.
      rewrite E1 by lia. apply E2. lia.
    + rewrite Herr2. exact Herr1.
  - (* Term *)
    intros f IHf more IHmore v p rest Hv Hx Hok Hr Hend.
    cbn in Hv, Hx, Hr. take_valid Hv. take_value Hx.
    rewrite <- app_assoc in Hr.
    destruct (IHf x p (render_term_tail more ++ rest)%list)
      as (p1 & n1 & E1 & Hok1 & Herr1 & Hr1);
      auto using term_tail_ends_factor.
    destruct (IHmore x v p1 rest)
      as (p2 & n2 & E2 & Hok2 & Herr2 & Hr2); auto.
    exists p2, (S (n1 + n2)). split; [|split; [auto|split; [|auto]]].
    + intros [|n] Hn; [lia|]. rewrite parse_term_eq, E1 by lia.
      apply E2. lia.
    + rewrite Herr2. exact Herr1.
  - (* TermEnd *)
    intros left v p rest _ [= <-] Hok Hr Hend. cbn in Hr.
    exists p, 1. split; [|auto].
    intros [|n] Hn; [lia|]. rewrite term_loop_eq, Hok.
    unfold current_type. rewrite (Reads_next _ _ Hr).
    destruct (next_type rest); try reflexivity; discriminate Hend.
  - (* Times *)
    intros f IHf more IHmore left v p rest Hv Hx Hok Hr Hend.
    cbn in Hv, Hx, Hr. take_valid Hv. take_value Hx.
    rewrite <- app_assoc in Hr. read_token Hr.
    destruct (IHf x (advance D p) (render_term_tail more ++ rest)%list)
      as (p1 & n1 & E1 & Hok1 & Herr1 & Hr1);
      auto using term_tail_ends_factor.
    destruct (IHmore (left * x)%float v p1 rest)
      as (p2 & n2 & E2 & Hok2 & Herr2 & Hr2); auto.
    exists p2, (S (n1 + n2)). split; [|split; [auto|split; [|auto]]].
    + intros [|n] Hn; [lia|]. rewrite term_loop_eq, Hok.
      unfold current_type. rewrite Hcur, E1 by lia. apply E2. lia.
    + rewrite Herr2. exact Herr1.
  - (* Over *)
    intros f IHf more IHmore left v p rest Hv Hx Hok Hr Hend.
    cbn in Hv, Hx, Hr. take_valid Hv. take_value Hx.
    unfold divide in Hx1.
    destruct (x =? 0)%float eqn:Hzero; [discriminate|]. injection Hx1 as <-.
    rewrite <- app_assoc in Hr. read_token Hr.
    destruct (IHf x (advance D p) (render_term_tail more ++ rest)%list)
      as (p1 & n1 & E1 & Hok1 & Herr1 & Hr1);
      auto using term_tail_ends_factor.
    destruct (IHmore (left / x)%float v p1 rest)
      as (p2 & n2 & E2 & Hok2 & Herr2 & Hr2); auto.
    exists p2, (S (n1 + n2)). split; [|split; [auto|split; [|auto]]].
    + intros [|n] Hn; [lia|]. rewrite term_loop_eq, Hok.
      unfold current_type. rewrite Hcur, E1 by lia. rewrite Hzero.
      apply E2. lia.
    + rewrite Herr2. exact Herr1.
  - (* Modulo *)
    intros f IHf more IHmore left v p rest Hv Hx Hok Hr Hend.
    cbn in Hv, Hx, Hr. take_valid Hv. take_value Hx.
    unfold modulo in Hx1.
    destruct (x =? 0)%float eqn:Hzero; [discriminate|]. injection Hx1 as <-.
    rewrite <- app_assoc in Hr. read_token Hr.
    destruct (IHf x (advance D p) (render_term_tail more ++ rest)%list)
      as (p1 & n1 & E1 & Hok1 & Herr1 & Hr1);
      auto using term_tail_ends_factor.
    destruct (IHmore (fmod left x) v p1 rest)
      as (p2 & n2 & E2 & Hok2 & Herr2 & Hr2); auto.
    exists p2, (S (n1 + n2)). split; [|split; [auto|split; [|auto]]].
    + intros [|n] Hn; [lia|]. rewrite term_loop_eq, Hok.
      unfold current_type. rewrite Hcur, E1 by lia. rewrite Hzero.
      apply E2. lia.
    + rewrite Herr2. exact Herr1.
  - (* Expression *)
    intros t IHt more IHmore v p rest Hv Hx Hok Hr Hend.
    cbn in Hv, Hx, Hr. take_valid Hv. take_value Hx.
    rewrite <- app_assoc in Hr.
    destruct (IHt x p (render_expression_tail more ++ rest)%list)
      as (p1 & n1 & E1 & Hok1 & Herr1 & Hr1);
      auto using expression_tail_ends_term.
    destruct (IHmore x v p1 rest)
      as (p2 & n2 & E2 & Hok2 & Herr2 & Hr2); auto.
    exists p2, (S (n1 + n2)). split; [|split; [auto|split; [|auto]]].
    + intros [|n] Hn; [lia|]. rewrite parse_expression_eq, E1 by lia.
      apply E2. lia.
    + rewrite Herr2. exact Herr1.
  - (* ExpressionEnd *)
    intros left v p rest _ [= <-] Hok Hr Hend. cbn in Hr.
    exists p, 1. split; [|auto].
    intros [|n] Hn; [lia|]. rewrite expression_loop_eq, Hok.
    unfold current_type. rewrite (Reads_next _ _ Hr).
    destruct (next_type rest); try reflexivity; discriminate Hend.
  - (* Add *)
    intros t IHt more IHmore left v p rest Hv Hx Hok Hr Hend.
    cbn in Hv, Hx, Hr. take_valid Hv. take_value Hx.
    rewrite <- app_assoc in Hr. read_token Hr.
    destruct (IHt x (advance D p) (render_expression_tail more ++ rest)%list)
      as (p1 & n1 & E1 & Hok1 & Herr1 & Hr1);
      auto using expression_tail_ends_term.
    destruct (IHmore (left + x)%float v p1 rest)
      as (p2 & n2 & E2 & Hok2 & Herr2 & Hr2); auto.
    exists p2, (S (n1 + n2)). split; [|split; [auto|split; [|auto]]].
    + intros [|n] Hn; [lia|]. rewrite expression_loop_eq, Hok.
      unfold current_type. rewrite Hcur, E1 by lia. apply E2. lia.
    + rewrite Herr2. exact Herr1.
  - (* Subtract *)
    intros t IHt more IHmore left v p rest Hv Hx Hok Hr Hend.
    cbn in Hv, Hx, Hr. take_valid Hv. take_value Hx.
    rewrite <- app_assoc in Hr. read_token Hr.
    destruct (IHt x (advance D p) (render_expression_tail more ++ rest)%list)
      as (p1 & n1 & E1 & Hok1 & Herr1 & Hr1);
      auto using expression_tail_ends_term.
    destruct (IHmore (left - x)%float v p1 rest)
      as (p2 & n2 & E2 & Hok2 & Herr2 & Hr2); auto.
    exists p2, (S (n1 + n2)). split; [|split; [auto|split; [|auto]]].
    + intros [|n] Hn; [lia|]. rewrite expression_loop_eq, Hok.
      unfold current_type. rewrite Hcur, E1 by lia. apply E2. lia.
    + rewrite Herr2. exact Herr1.
Qed.

End Soundness.

(* ================================================================= *)
(** ** evaluate returns, and what it returns *)

Section Evaluate.

Context {M : Libm}.
Variable D : Dialect.

Import Grammar.

Lemma parser_init_pending s :
  pending (parser_init D (lexer_init s)) <= String.length s + 1.
Proof.
  unfold pending, parser_init, current_type, lexer_advance. cbn [lexer].
  pose proof (lexer_next_token_progress D (lexer_init s)) as H.
  destruct (lexer_next_token D (lexer_init s)) as [t l'].
  destruct H as [Hle _].
  change (remaining {| input := input l'; position := position l';
                       current := t |}) with (remaining l').
  change (remaining (lexer_init s)) with s in Hle.
  destruct (type_eqb _ _); lia.
Qed.

(** The fuel [evaluate] gives to [parse_expression] is enough. *)
Lemma enough_fuel_suffices s :
  exists v p,
    parse_expression D (enough_fuel s) (parser_init D (lexer_init s))
    = Some (v, p).
Proof.
  pose proof (parser_init_pending s) as Hp.
  destruct (fuel_suffices D (enough_fuel s)) as (He & _).
  destruct (He (parser_init D (lexer_init s))) as (v & p & E & _).
  { unfold enough_fuel. lia. }
  eauto.
Qed.

(** What [evaluate] makes of the value and the parser that
    [parse_expression] returns. *)
Lemma evaluate_run s n v p :
  parse_expression D n (parser_init D (lexer_init s)) = Some (v, p) ->
  evaluate D s =
  Some (if has_error p then Failure (error p)
        else if type_eqb (current_type p) TOKEN_EOF then Value v
             else Failure (strncpy (msg_extra D) 255)).
Proof.
  intros Hn. destruct (enough_fuel_suffices s) as (v' & p' & E).
  assert (E' : Some (v', p') = Some (v, p)).
  { rewrite <- (parse_expression_fuel D _ (n + enough_fuel s) _ _ E) by lia.
    apply (parse_expression_fuel D n); [assumption|lia]. }
  injection E' as -> ->.
  unfold evaluate, evaluate_with. rewrite E.
  destruct (has_error p) eqn:Hok; cbn.
  - now rewrite Hok.
  - destruct (type_eqb (current_type p) TOKEN_EOF); cbn; [now rewrite Hok|].
    reflexivity.
Qed.

Lemma token_stream_Reads n l ts v :
  map lexeme_of (token_stream D n l) = (ts ++ [(TOKEN_EOF, v)])%list ->
  Reads D l (ts ++ [(TOKEN_EOF, v)]).
Proof.
  revert l ts; induction n as [|n IH]; intros l ts H; cbn in H.
  { destruct ts; discriminate. }
  destruct (type_eqb (type (current l)) TOKEN_EOF) eqn:Heof.
  - apply type_eqb_eq in Heof. cbn in H. rewrite <- H. now constructor.
  - apply type_eqb_neq in Heof. cbn [map] in H.
    destruct ts as [|t ts]; cbn in H.
    + injection H as H _. unfold lexeme_of in H. congruence.
    + injection H as <- H. cbn. constructor; auto.
Qed.

(** The lexemes of a text are what the parser reads of it. *)
Lemma lexemes_Reads s ts v :
  lexemes D s = (ts ++ [(TOKEN_EOF, v)])%list ->
  Reads D (lexer (parser_init D (lexer_init s))) (ts ++ [(TOKEN_EOF, v)]).
Proof. apply token_stream_Reads. Qed.

(** A text made of the tokens of a valid tree that has a value evaluates
    to that value. *)
Lemma evaluate_tree s e v :
  valid_expression (implicit_multiplication D) e = true ->
  value_expression e = Some v ->
  lexemes D s = (render_expression e ++ [sign TOKEN_EOF])%list ->
  evaluate D s = Some (Value v).
Proof.
  intros Hv Hx Hs. apply lexemes_Reads in Hs.
  destruct grammar_sound with (D := D)
    as (_ & _ & _ & _ & _ & _ & _ & He & _).
  destruct (He e v (parser_init D (lexer_init s)) [sign TOKEN_EOF])
    as (p & n & E & Hok & _ & Hr); auto.
  rewrite (evaluate_run s n v p) by (apply E; lia).
  rewrite Hok. unfold current_type. rewrite (Reads_next _ _ _ Hr).
  reflexivity.
Qed.

End Evaluate.

(* ================================================================= *)
(** ** calculator_mac.m accepts what calculator_tui.c accepts *)

Section Refinement.

Context {M : Libm}.

(** The two copies have the same lexer. *)
Lemma advance_tui_mac p : advance tui p = advance mac p.
Proof. reflexivity. Qed.

(** A loop of calculator_tui.c that ends well was entered well: no error
    was recorded, and the token it met was an operator of the loop or ends
    the rule. *)
Lemma expression_loop_entry n l p v p' :
  expression_loop tui n l p = Some (v, p') ->
  has_error p' = false -> ends_expression (current_type p') = true ->
  has_error p = false /\ ends_term (current_type p) = true.
Proof.
  destruct n as [|n]; [discriminate|]. rewrite expression_loop_eq.
  destruct (has_error p) eqn:Hp.
  { intros [= _ <-] Hok. congruence. }
  intros H Hok Hend. split; [reflexivity|].
  destruct (current_type p) eqn:Hc; try reflexivity;
    injection H as _ <-; rewrite Hc in Hend;
    now apply ends_expression_term.
Qed.

Lemma term_loop_entry n l p v p' :
  term_loop tui n l p = Some (v, p') ->
  has_error p' = false -> ends_term (current_type p') = true ->
  has_error p = false /\ ends_factor (current_type p) = true.
Proof.
  destruct n as [|n]; [discriminate|]. rewrite term_loop_eq.
  destruct (has_error p) eqn:Hp.
  { intros [= _ <-] Hok. congruence. }
  intros H Hok Hend. split; [reflexivity|].
  destruct (current_type p) eqn:Hc; try reflexivity;
    injection H as _ <-; rewrite Hc in Hend;
    now apply ends_term_factor.
Qed.

(** Whatever a rule of calculator_tui.c returns on the way to a result,
    the rule of calculator_mac.m returns too. *)
Lemma tui_mac_rules n :
  (forall p v p',
     parse_expression tui n p = Some (v, p') ->
     has_error p' = false -> ends_expression (current_type p') = true ->
     returns (parse_expression mac) p (v, p')) /\
  (forall l p v p',
     expression_loop tui n l p = Some (v, p') ->
     has_error p' = false -> ends_expression (current_type p') = true ->
     returns (fun m => expression_loop mac m l) p (v, p')) /\
  (forall p v p',
     parse_term tui n p = Some (v, p') ->
     has_error p' = false -> ends_term (current_type p') = true ->
     returns (parse_term mac) p (v, p')) /\
  (forall l p v p',
     term_loop tui n l p = Some (v, p') ->
     has_error p' = false -> ends_term (current_type p') = true ->
     returns (fun m => term_loop mac m l) p (v, p')) /\
  (forall p v p',
     parse_factor tui n p = Some (v, p') ->
     has_error p' = false -> ends_factor (current_type p') = true ->
     returns (parse_factor mac) p (v, p')) /\
  (forall p v p',
     parse_power tui n p = Some (v, p') ->
     has_error p' = false ->
     returns (parse_power mac) p (v, p')) /\
  (forall p v p',
     parse_unary tui n p = Some (v, p') ->
     has_error p' = false ->
     returns (parse_unary mac) p (v, p')) /\
  (forall p v p',
     parse_primary tui n p = Some (v, p') ->
     has_error p' = false ->
     returns (parse_primary mac) p (v, p')).
Proof.
  induction n as [|n IH].
  { repeat split; intros; discriminate. }
  destruct IH as (He & Hel & Ht & Htl & Hf & Hpw & Hu & Hpr).
  repeat split.
  - (* parse_expression *)
    intros p v p' H Hok Hend. rewrite parse_expression_eq in H.
    destruct (parse_term tui n p) as [[l p1]|] eqn:E; [|discriminate].
    destruct (expression_loop_entry _ _ _ _ _ H Hok Hend) as [Hok1 Hend1].
    destruct (Ht _ _ _ E Hok1 Hend1) as (n1 & E1).
    destruct (Hel _ _ _ _ H Hok Hend) as (n2 & E2).
    exists (S (n1 + n2)). intros [|m] Hm; [lia|].
    rewrite parse_expression_eq, E1 by lia. apply E2. lia.
  - (* expression_loop *)
    intros l p v p' H Hok Hend. rewrite expression_loop_eq in H.
    destruct (has_error p) eqn:Hp.
    { injection H as <- <-. congruence. }
    destruct (current_type p) eqn:Hc;
      try (injection H as <- <-; exists 1; intros [|m] Hm; [lia|];
           now rewrite expression_loop_eq, Hp, Hc);
      (destruct (parse_term tui n (advance tui p)) as [[r p1]|] eqn:E;
       [|discriminate]);
      destruct (expression_loop_entry _ _ _ _ _ H Hok Hend) as [Hok1 Hend1];
      destruct (Ht _ _ _ E Hok1 Hend1) as (n1 & E1);
      destruct (Hel _ _ _ _ H Hok Hend) as (n2 & E2);
      exists (S (n1 + n2)); (intros [|m] Hm; [lia|]);
      rewrite expression_loop_eq, Hp, Hc, <- advance_tui_mac, E1 by lia;
      apply E2; lia.
  - (* parse_term *)
    intros p v p' H Hok Hend. rewrite parse_term_eq in H.
    destruct (parse_factor tui n p) as [[l p1]|] eqn:E; [|discriminate].
    destruct (term_loop_entry _ _ _ _ _ H Hok Hend) as [Hok1 Hend1].
    destruct (Hf _ _ _ E Hok1 Hend1) as (n1 & E1).
    destruct (Htl _ _ _ _ H Hok Hend) as (n2 & E2).
    exists (S (n1 + n2)). intros [|m] Hm; [lia|].
    rewrite parse_term_eq, E1 by lia. apply E2. lia.
  - (* term_loop *)
    intros l p v p' H Hok Hend. rewrite term_loop_eq in H.
    destruct (has_error p) eqn:Hp.
    { injection H as <- <-. congruence. }
    destruct (current_type p) eqn:Hc;
      try (injection H as <- <-; exists 1; intros [|m] Hm; [lia|];
           now rewrite term_loop_eq, Hp, Hc);
      (destruct (parse_factor tui n (advance tui p)) as [[r p1]|] eqn:E;
       [|discriminate]);
      try (destruct (r =? 0)%float eqn:Hzero;
           [injection H as <- <-; discriminate Hok|]);
      destruct (term_loop_entry _ _ _ _ _ H Hok Hend) as [Hok1 Hend1];
      destruct (Hf _ _ _ E Hok1 Hend1) as (n1 & E1);
      destruct (Htl _ _ _ _ H Hok Hend) as (n2 & E2);
      exists (S (n1 + n2)); (intros [|m] Hm; [lia|]);
      rewrite term_loop_eq, Hp, Hc, <- advance_tui_mac, E1 by lia;
      try rewrite Hzero; apply E2; lia.
  - (* parse_factor *)
    intros p v p' H Hok Hend. rewrite parse_factor_eq in H. cbn in H.
    destruct (Hpw _ _ _ H Hok) as (n1 & E1).
    exists (S (S n1)). intros [|[|m]] Hm; try lia.
    rewrite parse_factor_eq. cbn [implicit_multiplication mac].
    rewrite E1 by lia. rewrite factor_loop_eq, Hok.
    unfold ends_factor in Hend. apply andb_true_iff in Hend as [_ Hend].
    apply negb_true_iff in Hend. now rewrite Hend.
  - (* parse_power *)
    intros p v p' H Hok. rewrite parse_power_eq in H.
    destruct (parse_unary tui n p) as [[l p1]|] eqn:E; [|discriminate].
    destruct (negb (has_error p1) && type_eqb (current_type p1) TOKEN_POWER)
      eqn:Hpow.
    + destruct (parse_power tui n (advance tui p1)) as [[r p2]|] eqn:E2;
        [|discriminate].
      injection H as <- <-.
      apply andb_true_iff in Hpow as Hpow'. destruct Hpow' as [Hok1 _].
      apply negb_true_iff in Hok1.
      destruct (Hu _ _ _ E Hok1) as (n1 & E1).
      destruct (Hpw _ _ _ E2 Hok) as (n2 & E2').
      exists (S (n1 + n2)). intros [|m] Hm; [lia|].
      rewrite parse_power_eq, E1 by lia. rewrite Hpow.
      rewrite <- advance_tui_mac, E2' by lia. reflexivity.
    + injection H as <- <-.
      destruct (Hu _ _ _ E Hok) as (n1 & E1).
      exists (S n1). intros [|m] Hm; [lia|].
      rewrite parse_power_eq, E1 by lia. now rewrite Hpow.
  - (* parse_unary *)
    intros p v p' H Hok.
    destruct (is_function (current_type p)) eqn:Hfn.
    + rewrite parse_unary_function in H by assumption.
      destruct (parse_primary tui n (advance tui p)) as [[x p1]|] eqn:E;
        [|discriminate].
      injection H as H.
      assert (Hp1 : p' = p1 /\ apply_function mac (current_type p) x p1
                               = (v, p')).
      { unfold apply_function in *.
        destruct (current_type p); try discriminate Hfn;
          try (injection H as <- <-; auto);
          match type of H with
          | (if ?b then _ else _) = _ => destruct b
          end;
          injection H as <- <-; auto; discriminate Hok. }
      destruct Hp1 as [-> Hap].
      destruct (Hpr _ _ _ E Hok) as (n1 & E1).
      exists (S n1). intros [|m] Hm; [lia|].
      rewrite parse_unary_function by assumption.
      rewrite <- advance_tui_mac, E1 by lia. now rewrite Hap.
    + rewrite parse_unary_eq in H.
      destruct (current_type p) eqn:Hc; try discriminate Hfn;
        try (destruct (Hpr _ _ _ H Hok) as (n1 & E1);
             exists (S n1); intros [|m] Hm; [lia|];
             rewrite parse_unary_eq, Hc; apply E1; lia).
      * (* TOKEN_PLUS *)
        destruct (Hu _ _ _ H Hok) as (n1 & E1).
        exists (S n1). intros [|m] Hm; [lia|].
        rewrite parse_unary_eq, Hc, <- advance_tui_mac. apply E1. lia.
      * (* TOKEN_MINUS *)
        destruct (parse_unary tui n (advance tui p)) as [[x p1]|] eqn:E;
          [|discriminate].
        injection H as <- <-.
        destruct (Hu _ _ _ E Hok) as (n1 & E1).
        exists (S n1). intros [|m] Hm; [lia|].
        rewrite parse_unary_eq, Hc, <- advance_tui_mac, E1 by lia.
        reflexivity.
  - (* parse_primary *)
    intros p v p' H Hok. rewrite parse_primary_eq in H.
    destruct (current_type p) eqn:Hc;
      try (injection H as <- <-; discriminate Hok);
      try (injection H as <- <-; exists 1; intros [|m] Hm; [lia|];
           now rewrite parse_primary_eq, Hc).
    (* TOKEN_LPAREN *)
    destruct (parse_expression tui n (advance tui p)) as [[x p1]|] eqn:E;
      [|discriminate].
    destruct (type_eqb (current_type p1) TOKEN_RPAREN) eqn:Hr.
    + injection H as <- <-.
      assert (Hend : ends_expression (current_type p1) = true)
        by (apply type_eqb_eq in Hr; now rewrite Hr).
      destruct (He _ _ _ E Hok Hend) as (n1 & E1).
      exists (S n1). intros [|m] Hm; [lia|].
      rewrite parse_primary_eq, Hc, <- advance_tui_mac, E1 by lia.
      now rewrite Hr.
    + injection H as <- <-. discriminate Hok.
Qed.

End Refinement.

Section Failures.

Context {M : Libm}.
Variable D : Dialect.

Import Grammar.

(** The error flag is never cleared: a rule entered with an error recorded
    returns with an error recorded. *)
Lemma error_latched n :
  (forall p r, parse_expression D n p = Some r ->
               has_error p = true -> has_error (snd r) = true) /\
  (forall l p r, expression_loop D n l p = Some r ->
                 has_error p = true -> has_error (snd r) = true) /\
  (forall p r, parse_term D n p = Some r ->
               has_error p = true -> has_error (snd r) = true) /\
  (forall l p r, term_loop D n l p = Some r ->
                 has_error p = true -> has_error (snd r) = true) /\
  (forall p r, parse_factor D n p = Some r ->
               has_error p = true -> has_error (snd r) = true) /\
  (forall l p r, factor_loop D n l p = Some r ->
                 has_error p = true -> has_error (snd r) = true) /\
  (forall p r, parse_power D n p = Some r ->
               has_error p = true -> has_error (snd r) = true) /\
  (forall p r, parse_unary D n p = Some r ->
               has_error p = true -> has_error (snd r) = true) /\
  (forall p r, parse_primary D n p = Some r ->
               has_error p = true -> has_error (snd r) = true).
Proof.
  induction n as [|n IH].
  { repeat split; intros; discriminate. }
  destruct IH as (He & Hel & Ht & Htl & Hf & Hfl & Hpw & Hu & Hpr).
  repeat split.
  - intros p r H Hp. rewrite parse_expression_eq in H.
    destruct (parse_term D n p) as [[l p1]|] eqn:E; [|discriminate].
    apply (Hel _ _ _ H). exact (Ht _ _ E Hp).
  - intros l p r H Hp. rewrite expression_loop_eq, Hp in H.
    now injection H as <-.
  - intros p r H Hp. rewrite parse_term_eq in H.
    destruct (parse_factor D n p) as [[l p1]|] eqn:E; [|discriminate].
    apply (Htl _ _ _ H). exact (Hf _ _ E Hp).
  - intros l p r H Hp. rewrite term_loop_eq, Hp in H.
    now injection H as <-.
  - intros p r H Hp. rewrite parse_factor_eq in H.
    destruct (implicit_multiplication D); [|exact (Hpw _ _ H Hp)].
    destruct (parse_power D n p) as [[l p1]|] eqn:E; [|discriminate].
    apply (Hfl _ _ _ H). exact (Hpw _ _ E Hp).
  - intros l p r H Hp. rewrite factor_loop_eq, Hp in H.
    now injection H as <-.
  - intros p r H Hp. rewrite parse_power_eq in H.
    destruct (parse_unary D n p) as [[l p1]|] eqn:E; [|discriminate].
    pose proof (Hu _ _ E Hp) as Hp1. cbn [snd] in Hp1.
    rewrite Hp1 in H. now injection H as <-.
  - intros p r H Hp.
    destruct (is_function (current_type p)) eqn:Hfn.
    + rewrite parse_unary_function in H by assumption.
      destruct (parse_primary D n (advance D p)) as [[x p1]|] eqn:E;
        [|discriminate].
      pose proof (Hpr _ _ E Hp) as Hp1. cbn [snd] in Hp1.
      injection H as <-. unfold apply_function.
      destruct (current_type p); try assumption;
        match goal with |- context [if ?b then _ else _] => destruct b end;
        auto.
    + rewrite parse_unary_eq in H.
      destruct (current_type p); try discriminate Hfn;
        try exact (Hpr _ _ H Hp); try exact (Hu _ _ H Hp).
      destruct (parse_unary D n (advance D p)) as [[x p1]|] eqn:E;
        [|discriminate].
      injection H as <-. exact (Hu _ _ E Hp).
  - intros p r H Hp. rewrite parse_primary_eq in H.
    destruct (current_type p); try (now injection H as <-).
    destruct (parse_expression D n (advance D p)) as [[x p1]|] eqn:E;
      [|discriminate].
    pose proof (He _ _ E Hp) as Hp1. cbn [snd] in Hp1.
    destruct (type_eqb (current_type p1) TOKEN_RPAREN);
      now injection H as <-.
Qed.

(** Once [parse_unary] has returned with an error recorded, the rules above
    it return what it returned: their loops do not run, and none of them
    records anything. *)
Lemma failure_surfaces n p v p' :
  parse_unary D n p = Some (v, p') -> has_error p' = true ->
  parse_expression D (4 + n) p = Some (v, p').
Proof.
  intros E Herr.
  destruct n as [|n]; [discriminate|].
  assert (Epw : parse_power D (S (S n)) p = Some (v, p'))
    by now rewrite parse_power_eq, E, Herr.
  assert (Ef : parse_factor D (S (S (S n))) p = Some (v, p')).
  { rewrite parse_factor_eq, Epw.
    destruct (implicit_multiplication D); [|reflexivity].
    now rewrite factor_loop_eq, Herr. }
  assert (Et : parse_term D (S (S (S (S n)))) p = Some (v, p'))
    by now rewrite parse_term_eq, Ef, term_loop_eq, Herr.
  cbn [Nat.add]. now rewrite parse_expression_eq, Et, expression_loop_eq, Herr.
Qed.

Lemma isspace_not_nul c : isspace c = true -> is_nul c = false.
Proof.
  unfold isspace, is_nul. destruct (nat_of_ascii c); [discriminate|auto].
Qed.

Lemma blank_span s : blank s = true -> span isspace s = String.length s.
Proof.
  induction s as [|c s IH]; cbn; [reflexivity|].
  intros [Hc Hs]%andb_true_iff.
  rewrite (isspace_not_nul _ Hc), Hc. cbn. now rewrite IH.
Qed.

Lemma drop_all s : drop (String.length s) s = EmptyString.
Proof. induction s; cbn; auto. Qed.

(** The first token of a blank text is the end of the input. *)
Lemma blank_first_token s :
  blank s = true ->
  current_type (parser_init D (lexer_init s)) = TOKEN_EOF.
Proof.
  intros Hb. unfold current_type, parser_init, lexer_advance. cbn [lexer].
  unfold lexer_next_token, lexer_skip_whitespace.
  change (remaining (lexer_init s)) with s. rewrite (blank_span _ Hb).
  unfold char_at. cbn [input position set_position lexer_init Nat.add].
  rewrite drop_all. reflexivity.
Qed.

(** At the end of the input [parse_expression] fails in [parse_primary]. *)
Lemma end_of_input_fails n p :
  current_type p = TOKEN_EOF ->
  parse_expression D (6 + n) p = Some (0%float, parser_error p (msg_end D)).
Proof.
  intros Hc. apply (failure_surfaces (2 + n)); [|reflexivity].
  cbn [Nat.add]. rewrite parse_unary_plain, parse_primary_eq, Hc;
    try rewrite Hc; try reflexivity; discriminate.
Qed.


Lemma apply_function_state t x p v p' :
  apply_function D t x p = (v, p') -> has_error p' = false -> p' = p.
Proof.
  unfold apply_function.
  destruct t; try (now intros [= _ <-]);
    match goal with |- context [if ?b then _ else _] => destruct b end;
    intros [= _ <-]; auto; discriminate.
Qed.



End Failures.

(* ================================================================= *)
(** ** Number tokens *)

Lemma is_nul_zero c : is_nul c = true -> c = Ascii.zero.
Proof.
  unfold is_nul. intros H%Nat.eqb_eq.
  rewrite <- (ascii_nat_embedding c), H. reflexivity.
Qed.

Lemma isdigit_not_nul c : isdigit c = true -> is_nul c = false.
Proof.
  unfold isdigit, is_nul. destruct (nat_of_ascii c); [discriminate|auto].
Qed.

(** After the point, the loop of [lexer_read_number] passes digits only. *)
Lemma number_span_after_point s : number_span true s = span isdigit s.
Proof.
  induction s as [|c s IH]; cbn; [reflexivity|].
  destruct (is_nul c) eqn:Hn; cbn; [reflexivity|].
  destruct (isdigit c); [now rewrite IH|].
  now rewrite andb_false_r.
Qed.

(** The loop of [lexer_read_number] passes the digits, and one point with
    the digits after it. *)
Lemma number_span_extent s : number_span false s = number_extent s.
Proof.
  unfold number_extent.
  induction s as [|c s IH]; cbn [number_span span]; [reflexivity|].
  destruct (is_nul c) eqn:Hn; cbn [negb andb].
  { apply is_nul_zero in Hn. subst c. reflexivity. }
  destruct (isdigit c) eqn:Hd.
  - rewrite IH. cbn [drop Nat.add].
    destruct (Ascii.eqb (peek (drop (span isdigit s) s)) "."); reflexivity.
  - cbn [drop peek Nat.add andb negb].
    destruct (Ascii.eqb c "."); [|reflexivity].
    now rewrite number_span_after_point.
Qed.

Section Numbers.

Context {M : Libm}.
Variable D : Dialect.

Lemma starts_number_not_nul s :
  starts_number s = true -> is_nul (peek s) = false.
Proof.
  unfold starts_number. intros [H|[H _]%andb_true_iff]%orb_true_iff.
  - now apply isdigit_not_nul.
  - apply Ascii.eqb_eq in H. now rewrite H.
Qed.

Lemma char_at_next l :
  char_at (input l) (position l + 1) = peek (drop 1 (remaining l)).
Proof. unfold char_at, remaining. now rewrite drop_drop. Qed.

(** Where a number begins, [lexer_next_token] returns a number token: its
    text is that of the extent, cut to what a token holds, and its value is
    what [atof] makes of this text. *)
Lemma number_token l :
  let l' := lexer_skip_whitespace l in
  let w := remaining l' in
  let txt := strncpy w (token_len (number_extent w)) in
  starts_number w = true ->
  lexer_next_token D l =
  ({| type := TOKEN_NUMBER; value := atof txt; text := txt |},
   set_position l' (position l' + number_extent w)).
Proof.
  intros l' w txt Hs. unfold lexer_next_token. fold l'.
  change (char_at (input l') (position l')) with (peek w).
  rewrite (starts_number_not_nul _ Hs), char_at_next. fold w.
  unfold starts_number in Hs. rewrite Hs.
  unfold lexer_read_number. fold w. cbn [position set_position].
  rewrite Nat.add_comm, Nat.add_sub, number_span_extent.
  now rewrite Nat.add_comm.
Qed.

(** Anywhere else, the token is not a number. *)
Lemma not_number_token l :
  starts_number (remaining (lexer_skip_whitespace l)) = false ->
  type (fst (lexer_next_token D l)) <> TOKEN_NUMBER.
Proof.
  intros Hs. unfold lexer_next_token.
  set (l' := lexer_skip_whitespace l) in *.
  change (char_at (input l') (position l')) with (peek (remaining l')).
  rewrite char_at_next. unfold starts_number in Hs. rewrite Hs.
  destruct (is_nul _); [discriminate|].
  destruct (isalpha _).
  - unfold lexer_read_identifier, keyword. cbn [fst].
    repeat match goal with
           | |- context [if ?b then _ else _] => destruct b
           end; discriminate.
  - unfold punctuation. cbn [fst].
    repeat match goal with
           | |- context [if ?b then _ else _] => destruct b
           end; discriminate.
Qed.

(** A point that no digit follows is an unexpected character. *)
Lemma lone_point_token l :
  let l' := lexer_skip_whitespace l in
  let w := remaining l' in
  peek w = "."%char -> isdigit (peek (drop 1 w)) = false ->
  lexer_next_token D l =
  (mkToken TOKEN_ERROR 0 (msg_unexpected_character D ++ "."),
   set_position l' (position l' + 1)).
Proof.
  intros l' w Hp Hd. unfold lexer_next_token. fold l'.
  change (char_at (input l') (position l')) with (peek w).
  rewrite char_at_next. fold w. rewrite Hp, Hd. reflexivity.
Qed.

End Numbers.

(* ================================================================= *)
(** * The claims of the specification *)

Import Grammar.

(** [evaluate] returns on every text: its fuel never runs out. *)
Theorem evaluate_total (M : Libm) (D : Dialect) (s : string) :
  exists o, evaluate D s = Some o.
Proof.
  destruct (enough_fuel_suffices D s) as (v & p & E).
  rewrite (evaluate_run D s _ v p E). eauto.
Qed.

(* ----------------------------------------------------------------- *)
(** ** C1: operator precedence *)




Example sum_is_14 :
  @evaluate Reference.libm cli "2 + 3 * 4" = Some (Value 14).
Proof.
  apply (evaluate_tree cli _ Examples.sum_tree); reflexivity.
Qed.

Example grouped_is_20 :
  @evaluate Reference.libm cli "(2 + 3) * 4" = Some (Value 20).
Proof.
  apply (evaluate_tree cli _ Examples.grouped_tree); reflexivity.
Qed.

(** Whatever the C library, [2^3^2] is [pow(2, pow(3, 2))]. *)
Example tower_groups_right (M : Libm) :
  evaluate cli "2^3^2"
  = Some (Value (pow (atof "2") (pow (atof "3") (atof "2")))).
Proof. reflexivity. Qed.

(* ----------------------------------------------------------------- *)
(** ** C2: the first error *)

(** C2: the code records a second error over the first. On [1/], the
    operand that [parse_term] asks for after [/] is missing:
    [parse_factor] records "Unexpected end" and returns 0; [parse_term]
    then takes this 0 for the divisor, records "Division by zero" over it,
    and that is what [evaluate] reports. [parse_unary] does the same after
    [log], and [parse_primary] at a missing parenthesis. *)
Theorem first_error_overwritten (M : Libm) :
  (let p := advance tui (parser_init tui (lexer_init "1/")) in
   current_type p = TOKEN_DIVIDE
   /\ has_error p = false
   /\ exists p1,
        parse_factor tui 4 (advance tui p) = Some (0%float, p1)
        /\ has_error p1 = true
        /\ error p1 = "Unexpected end")
  /\ evaluate tui "1/" = Some (Failure "Division by zero")
  /\ evaluate cli "1/" = Some (Failure "Division by zero")
  /\ evaluate tui "log" = Some (Failure "Log of non-positive")
  /\ evaluate tui "(@)" = Some (Failure "Missing )").
Proof.
  repeat split; try reflexivity.
  eexists. repeat split.
Qed.

(* ----------------------------------------------------------------- *)
(** ** C3: division and modulo by zero *)

(** What [parse_term] does at an operator, once the right operand has been
    parsed: before it divides it compares the operand with 0, and records
    the error if they are equal. *)
Lemma term_checks_divisor (M : Libm) (D : Dialect) n left p right p1 :
  has_error p = false ->
  parse_factor D n (advance D p) = Some (right, p1) ->
  (current_type p = TOKEN_DIVIDE ->
   term_loop D (S n) left p =
   if (right =? 0)%float
   then Some (0%float, parser_error p1 "Division by zero")
   else term_loop D n (left / right)%float p1)
  /\ (current_type p = TOKEN_MODULO ->
      term_loop D (S n) left p =
      if (right =? 0)%float
      then Some (0%float, parser_error p1 "Modulo by zero")
      else term_loop D n (fmod left right) p1).
Proof.
  intros Hok E. split; intros Hc; now rewrite term_loop_eq, Hok, Hc, E.
Qed.

(** C3: the code reports another error than the division by zero that it
    met. In [(1/0+2)] the divisor is 0 and [parse_term] records "Division
    by zero"; [parse_primary] then finds [+] where it wants [)] and, without
    looking at the error already recorded, records "Missing )" over it.
    [5%0] within parentheses fares the same. *)
Theorem division_by_zero_misreported :
  (let p := @advance Reference.libm tui
              (@parser_init Reference.libm tui (lexer_init "(1/0+2)")) in
   exists p1,
     @parse_term Reference.libm tui 7 p = Some (0%float, p1)
     /\ has_error p1 = true
     /\ error p1 = "Division by zero"
     /\ current_type p1 = TOKEN_PLUS)
  /\ @evaluate Reference.libm tui "(1/0+2)" = Some (Failure "Missing )")
  /\ @evaluate Reference.libm cli "(1/0+2)"
     = Some (Failure "Expected closing parenthesis")
  /\ @evaluate Reference.libm tui "(5%0-1)" = Some (Failure "Missing )")
  /\ @evaluate Reference.libm tui "1/0+2"
     = Some (Failure "Division by zero").
Proof.
  repeat split; try reflexivity.
  eexists. repeat split.
Qed.

(* ----------------------------------------------------------------- *)
(** ** C4: the domains of sqrt and log *)



(* ----------------------------------------------------------------- *)
(** ** C5: a function name takes one primary *)



(** Whatever the C library, [sin 2^2] is [pow(sin(2), 2)]. *)
Example sin_2_squared_any (M : Libm) :
  evaluate cli "sin 2^2" = Some (Value (pow (sin (atof "2")) (atof "2"))).
Proof. reflexivity. Qed.

(* ----------------------------------------------------------------- *)
(** ** C6: implicit multiplication *)

(** C6: in calculator_mac.m a power followed by powers that begin with a
    number, a constant, a parenthesis or a function name is their product,
    taken from left to right. *)
Theorem adjacent_operands_multiply
  (M : Libm) (s : string) (pw : power) (more : adjacent) (x v : float) :
  valid_power true pw = true ->
  valid_adjacent true more = true ->
  value_power pw = Some x ->
  value_adjacent x more = Some v ->
  lexemes mac s
  = (render_power pw ++ render_adjacent more ++ [sign TOKEN_EOF])%list ->
  evaluate mac s = Some (Value v).
Proof.
  intros Hvp Hvm Hx Hv Hs.
  apply (evaluate_tree mac s (Examples.only_factor (Factor pw more))).
  - cbn. now rewrite Hvp, Hvm.
  - cbn. rewrite Hx. cbn. now rewrite Hv.
  - rewrite Hs. cbn. now rewrite !app_nil_r, <- app_assoc.
Qed.

(** [2(3+4)] is 14. *)
Lemma two_times_seven :
  @evaluate Reference.libm mac "2(3+4)" = Some (Value 14).
Proof.
  apply (adjacent_operands_multiply Reference.libm "2(3+4)"
           (Unary (Primary (Number 2)))
           (Adjacent (Unary (Primary Examples.seven)) NoAdjacent)
           2 14);
    reflexivity.
Defined.

(** Whatever the C library, [2pi] is 2 times pi, [2(3+4)] is 2 times the
    sum, and [2sin(0)] is 2 times the sine. *)
Example implicit_products (M : Libm) :
  evaluate mac "2pi" = Some (Value (atof "2" * M_PI)%float)
  /\ evaluate mac "2(3+4)"
     = Some (Value (atof "2" * (atof "3" + atof "4"))%float)
  /\ evaluate mac "2sin(0)" = Some (Value (atof "2" * sin (atof "0"))%float).
Proof. repeat split. Qed.

(** The other copies take the second operand for trailing input. *)
Example no_implicit_product (M : Libm) :
  evaluate tui "2pi" = Some (Failure "Extra tokens")
  /\ evaluate cli "2(3+4)"
     = Some (Failure "Unexpected tokens after expression").
Proof. repeat split. Qed.

(* ----------------------------------------------------------------- *)
(** ** C7: trailing tokens *)

(** C7: when [parse_expression] returns without an error and the current
    token is not the end of the input, [evaluate] fails with the message of
    the trailing tokens. *)
Theorem trailing_tokens_rejected
  (M : Libm) (D : Dialect) (s : string) (n : nat) (v : float) (p : Parser) :
  parse_expression D n (parser_init D (lexer_init s)) = Some (v, p) ->
  has_error p = false ->
  current_type p <> TOKEN_EOF ->
  evaluate D s = Some (Failure (strncpy (msg_extra D) 255)).
Proof.
  intros E Hok Hc. rewrite (evaluate_run D s n v p E), Hok.
  unfold type_eqb. destruct (TokenType_eq_dec _ _); [contradiction|].
  reflexivity.
Qed.

(** [2 3]: what trails, [3], is itself an expression. *)
Lemma second_expression_rejected :
  @evaluate Reference.libm tui "2 3" = Some (Failure "Extra tokens").
Proof.
  eapply (trailing_tokens_rejected Reference.libm tui "2 3" 6).
  - vm_compute. reflexivity.
  - reflexivity.
  - discriminate.
Defined.

(* ----------------------------------------------------------------- *)
(** ** C8: empty input *)

(** C8: on the empty text, and on a text of white space only, [evaluate]
    fails with the message of the unexpected end. *)
Theorem blank_input_rejected (M : Libm) (D : Dialect) (s : string) :
  blank s = true ->
  evaluate D s = Some (Failure (strncpy (msg_end D) 255)).
Proof.
  intros Hb.
  rewrite (evaluate_run D s _ _ _
             (end_of_input_fails D 0 _ (blank_first_token D s Hb))).
  reflexivity.
Qed.

Lemma empty_input_rejected :
  @evaluate Reference.libm tui "" = Some (Failure "Unexpected end")
  /\ @evaluate Reference.libm tui "   " = Some (Failure "Unexpected end")
  /\ @evaluate Reference.libm cli ""
     = Some (Failure "Unexpected end of expression").
Proof.
  split; [|split].
  - apply (blank_input_rejected Reference.libm tui ""). reflexivity.
  - apply (blank_input_rejected Reference.libm tui "   "). reflexivity.
  - apply (blank_input_rejected Reference.libm cli ""). reflexivity.
Defined.

(* ----------------------------------------------------------------- *)
(** ** C9: number tokens *)

Example number_pattern_examples :
  number_pattern "12" = true /\ number_pattern "12.5" = true
  /\ number_pattern "1." = false /\ number_pattern ".5" = false
  /\ number_pattern "1.2.3" = false.
Proof. repeat split. Qed.

(** C9, as the specification words it, fails: the lexer makes a number
    token of [1.], which the pattern [[0-9]+(\.[0-9]+)?] does not match. *)
Lemma trailing_point_is_number :
  let t := fst (@lexer_next_token Reference.libm tui (lexer_init "1.")) in
  type t = TOKEN_NUMBER
  /\ text t = "1."
  /\ value t = 1%float
  /\ number_pattern (text t) = false.
Proof. repeat split. Qed.

(** C9 (amended): past the white space, where the text begins with a digit
    or with a point that a digit follows, the token is a number; it takes
    the digits and, if a point comes after them, that point and the digits
    after it, so that [1.] and [.5] are numbers and a second point ends the
    token; its text is what it took, cut to 255 characters, and its value is
    what [atof] makes of this text. Nowhere else is the token a number, and
    a point that no digit follows is an unexpected character. *)
Theorem number_token_extent (M : Libm) (D : Dialect) (l : Lexer) :
  let l' := lexer_skip_whitespace l in
  let w := remaining l' in
  let txt := strncpy w (token_len (number_extent w)) in
  (starts_number w = true ->
   lexer_next_token D l =
   ({| type := TOKEN_NUMBER; value := atof txt; text := txt |},
    set_position l' (position l' + number_extent w)))
  /\ (starts_number w = false ->
      type (fst (lexer_next_token D l)) <> TOKEN_NUMBER)
  /\ (peek w = "."%char -> isdigit (peek (drop 1 w)) = false ->
      lexer_next_token D l =
      (mkToken TOKEN_ERROR 0 (msg_unexpected_character D ++ "."),
       set_position l' (position l' + 1))).
Proof.
  intros l' w txt. split; [|split].
  - apply number_token.
  - apply not_number_token.
  - apply lone_point_token.
Qed.

Lemma number_tokens_read :
  @lexer_next_token Reference.libm tui (lexer_init " 3.25.75")
  = (mkToken TOKEN_NUMBER 3.25 "3.25",
     mkLexer " 3.25.75" 5 (current (lexer_init " 3.25.75")))
  /\ type (fst (@lexer_next_token Reference.libm tui (lexer_init "pi")))
     <> TOKEN_NUMBER
  /\ @lexer_next_token Reference.libm tui (lexer_init ".+")
     = (mkToken TOKEN_ERROR 0 "Unknown: .",
        mkLexer ".+" 1 (current (lexer_init ".+"))).
Proof.
  split; [|split].
  - apply (proj1 (number_token_extent Reference.libm tui
                    (lexer_init " 3.25.75"))).
    reflexivity.
  - apply (proj1 (proj2 (number_token_extent Reference.libm tui
                           (lexer_init "pi")))).
    reflexivity.
  - apply (proj2 (proj2 (number_token_extent Reference.libm tui
                           (lexer_init ".+")))); reflexivity.
Defined.

(* ----------------------------------------------------------------- *)
(** ** C10: the two variants *)

(** C10: a text that calculator_tui.c evaluates to a value,
    calculator_mac.m evaluates to the same value. *)
Theorem mac_accepts_tui (M : Libm) (s : string) (v : float) :
  evaluate tui s = Some (Value v) -> evaluate mac s = Some (Value v).
Proof.
  destruct (enough_fuel_suffices tui s) as (v0 & p & E).
  rewrite (evaluate_run tui s _ v0 p E).
  destruct (has_error p) eqn:Hok; [discriminate|].
  destruct (type_eqb (current_type p) TOKEN_EOF) eqn:Hc; [|discriminate].
  intros [= <-].
  destruct (tui_mac_rules (enough_fuel s)) as (He & _).
  destruct (He _ _ _ E Hok) as (n0 & E0).
  { apply type_eqb_eq in Hc. now rewrite Hc. }
  rewrite (evaluate_run mac s n0 v0 p (E0 n0 (le_n n0))).
  now rewrite Hok, Hc.
Qed.

Lemma mac_sum_is_14 :
  @evaluate Reference.libm mac "2 + 3 * 4" = Some (Value 14).
Proof.
  apply (mac_accepts_tui Reference.libm "2 + 3 * 4" 14). reflexivity.
Defined.

(** The converse fails: calculator_mac.m accepts [2pi]. *)
Example tui_rejects_what_mac_accepts (M : Libm) :
  evaluate mac "2pi" = Some (Value (atof "2" * M_PI)%float)
  /\ evaluate tui "2pi" = Some (Failure "Extra tokens").
Proof. repeat split. Qed.

(* ================================================================= *)
(** * Further properties of the core *)

(* ----------------------------------------------------------------- *)
(** ** The parser sees the text through its tokens only *)

Section TokenView.

Context {M : Libm}.
Variable D : Dialect.

Lemma same_tokens_current l1 l2 :
  same_tokens D l1 l2 -> current l1 = current l2.
Proof. intros H. specialize (H 1). cbn in H. congruence. Qed.

Lemma same_tokens_advance l1 l2 :
  same_tokens D l1 l2 -> type (current l1) <> TOKEN_EOF ->
  same_tokens D (lexer_advance D l1) (lexer_advance D l2).
Proof.
  intros H Hc n. pose proof (same_tokens_current _ _ H) as Hcur.
  specialize (H (S n)). cbn [token_stream] in H. rewrite <- Hcur in H.
  destruct (type_eqb (type (current l1)) TOKEN_EOF) eqn:E.
  - apply type_eqb_eq in E. contradiction.
  - now injection H.
Qed.

Lemma alike_type p1 p2 : alike D p1 p2 -> current_type p1 = current_type p2.
Proof.
  intros (H & _). unfold current_type.
  now rewrite (same_tokens_current _ _ H).
Qed.

Lemma alike_advance p1 p2 :
  alike D p1 p2 -> current_type p1 <> TOKEN_EOF ->
  alike D (advance D p1) (advance D p2).
Proof.
  intros (H & He & Hh) Hc. repeat split; cbn; auto.
  now apply same_tokens_advance.
Qed.

Lemma alike_error p1 p2 m :
  alike D p1 p2 -> alike D (parser_error p1 m) (parser_error p2 m).
Proof. intros (H & _). repeat split; auto. Qed.

Ltac step_alike H :=
  let Hc := fresh "Hadv" in
  pose proof (alike_advance _ _ H) as Hc;
  match type of Hc with
  | ?A -> _ => assert A as Hne by congruence; specialize (Hc Hne); clear Hne
  end.

(** Rules called on parsers that are alike return the same value and leave
    parsers that are alike. *)
Lemma alike_rules n :
  (forall p1 p2 v q1, alike D p1 p2 ->
     parse_expression D n p1 = Some (v, q1) ->
     exists q2, parse_expression D n p2 = Some (v, q2) /\ alike D q1 q2) /\
  (forall l p1 p2 v q1, alike D p1 p2 ->
     expression_loop D n l p1 = Some (v, q1) ->
     exists q2, expression_loop D n l p2 = Some (v, q2) /\ alike D q1 q2) /\
  (forall p1 p2 v q1, alike D p1 p2 ->
     parse_term D n p1 = Some (v, q1) ->
     exists q2, parse_term D n p2 = Some (v, q2) /\ alike D q1 q2) /\
  (forall l p1 p2 v q1, alike D p1 p2 ->
     term_loop D n l p1 = Some (v, q1) ->
     exists q2, term_loop D n l p2 = Some (v, q2) /\ alike D q1 q2) /\
  (forall p1 p2 v q1, alike D p1 p2 ->
     parse_factor D n p1 = Some (v, q1) ->
     exists q2, parse_factor D n p2 = Some (v, q2) /\ alike D q1 q2) /\
  (forall l p1 p2 v q1, alike D p1 p2 ->
     factor_loop D n l p1 = Some (v, q1) ->
     exists q2, factor_loop D n l p2 = Some (v, q2) /\ alike D q1 q2) /\
  (forall p1 p2 v q1, alike D p1 p2 ->
     parse_power D n p1 = Some (v, q1) ->
     exists q2, parse_power D n p2 = Some (v, q2) /\ alike D q1 q2) /\
  (forall p1 p2 v q1, alike D p1 p2 ->
     parse_unary D n p1 = Some (v, q1) ->
     exists q2, parse_unary D n p2 = Some (v, q2) /\ alike D q1 q2) /\
  (forall p1 p2 v q1, alike D p1 p2 ->
     parse_primary D n p1 = Some (v, q1) ->
     exists q2, parse_primary D n p2 = Some (v, q2) /\ alike D q1 q2).
Proof.
  induction n as [|n IH].
  { repeat split; intros; discriminate. }
  destruct IH as (He & Hel & Ht & Htl & Hf & Hfl & Hpw & Hu & Hpr).
  repeat split.
  - (* parse_expression *)
    intros p1 p2 v q1 A H. rewrite parse_expression_eq in *.
    destruct (parse_term D n p1) as [[l r1]|] eqn:E; [|discriminate].
    destruct (Ht _ _ _ _ A E) as (r2 & -> & A1). eauto.
  - (* expression_loop *)
    intros l p1 p2 v q1 A H. rewrite expression_loop_eq in *.
    pose proof A as (_ & _ & Hh). rewrite <- Hh, <- (alike_type _ _ A).
    destruct (has_error p1); [injection H as <- <-; eauto|].
    destruct (current_type p1) eqn:Hc;
      try (injection H as <- <-; eauto; fail);
      step_alike A;
      (destruct (parse_term D n (advance D p1)) as [[x r1]|] eqn:E;
       [|discriminate]);
      destruct (Ht _ _ _ _ Hadv E) as (r2 & -> & A1); eauto.
  - (* parse_term *)
    intros p1 p2 v q1 A H. rewrite parse_term_eq in *.
    destruct (parse_factor D n p1) as [[l r1]|] eqn:E; [|discriminate].
    destruct (Hf _ _ _ _ A E) as (r2 & -> & A1). eauto.
  - (* term_loop *)
    intros l p1 p2 v q1 A H. rewrite term_loop_eq in *.
    pose proof A as (_ & _ & Hh). rewrite <- Hh, <- (alike_type _ _ A).
    destruct (has_error p1); [injection H as <- <-; eauto|].
    destruct (current_type p1) eqn:Hc;
      try (injection H as <- <-; eauto; fail);
      step_alike A;
      (destruct (parse_factor D n (advance D p1)) as [[x r1]|] eqn:E;
       [|discriminate]);
      destruct (Hf _ _ _ _ Hadv E) as (r2 & -> & A1);
      try (destruct (x =? 0)%float;
           [injection H as <- <-; eauto using alike_error|]);
      eauto.
  - (* parse_factor *)
    intros p1 p2 v q1 A H. rewrite parse_factor_eq in *.
    destruct (implicit_multiplication D); [|eauto].
    destruct (parse_power D n p1) as [[l r1]|] eqn:E; [|discriminate].
    destruct (Hpw _ _ _ _ A E) as (r2 & -> & A1). eauto.
  - (* factor_loop *)
    intros l p1 p2 v q1 A H. rewrite factor_loop_eq in *.
    pose proof A as (_ & _ & Hh). rewrite <- Hh, <- (alike_type _ _ A).
    destruct (has_error p1); [injection H as <- <-; eauto|].
    destruct (starts_operand (current_type p1));
      [|injection H as <- <-; eauto].
    destruct (parse_power D n p1) as [[x r1]|] eqn:E; [|discriminate].
    destruct (Hpw _ _ _ _ A E) as (r2 & -> & A1). eauto.
  - (* parse_power *)
    intros p1 p2 v q1 A H. rewrite parse_power_eq in *.
    destruct (parse_unary D n p1) as [[l r1]|] eqn:E; [|discriminate].
    destruct (Hu _ _ _ _ A E) as (r2 & -> & A1).
    pose proof A1 as (_ & _ & Hh). rewrite <- Hh, <- (alike_type _ _ A1).
    destruct (negb (has_error r1) && type_eqb (current_type r1) TOKEN_POWER)
      eqn:Hpow; [|injection H as <- <-; eauto].
    apply andb_true_iff in Hpow as [_ Hc]. apply type_eqb_eq in Hc.
    step_alike A1.
    destruct (parse_power D n (advance D r1)) as [[x s1]|] eqn:E2;
      [|discriminate].
    destruct (Hpw _ _ _ _ Hadv E2) as (s2 & -> & A2).
    injection H as <- <-. eauto.
  - (* parse_unary *)
    intros p1 p2 v q1 A H.
    destruct (is_function (current_type p1)) eqn:Hfn.
    + rewrite parse_unary_function in H by assumption.
      rewrite parse_unary_function
        by (rewrite <- (alike_type _ _ A); assumption).
      assert (Hc : current_type p1 <> TOKEN_EOF)
        by (intros Hc; rewrite Hc in Hfn; discriminate).
      pose proof (alike_advance _ _ A Hc) as Hadv.
      destruct (parse_primary D n (advance D p1)) as [[x r1]|] eqn:E;
        [|discriminate].
      destruct (Hpr _ _ _ _ Hadv E) as (r2 & -> & A1).
      rewrite <- (alike_type _ _ A). injection H as H.
      unfold apply_function in *.
      destruct (current_type p1); try discriminate Hfn;
        try (injection H as <- <-; eauto; fail);
        match type of H with
        | (if ?b then _ else _) = _ => destruct b
        end; injection H as <- <-; eauto using alike_error.
    + rewrite parse_unary_eq in *. rewrite <- (alike_type _ _ A).
      destruct (current_type p1) eqn:Hc; try discriminate Hfn; eauto.
      * step_alike A. eauto.
      * step_alike A.
        destruct (parse_unary D n (advance D p1)) as [[x r1]|] eqn:E;
          [|discriminate].
        destruct (Hu _ _ _ _ Hadv E) as (r2 & -> & A1).
        injection H as <- <-. eauto.
  - (* parse_primary *)
    intros p1 p2 v q1 A H. rewrite parse_primary_eq in *.
    rewrite <- (alike_type _ _ A).
    pose proof A as (Hs & _). apply same_tokens_current in Hs.
    rewrite <- Hs.
    destruct (current_type p1) eqn:Hc;
      try (injection H as <- <-; eauto using alike_error; fail);
      step_alike A;
      try (injection H as <- <-; eauto; fail).
    destruct (parse_expression D n (advance D p1)) as [[x r1]|] eqn:E;
      [|discriminate].
    destruct (He _ _ _ _ Hadv E) as (r2 & -> & A1).
    rewrite <- (alike_type _ _ A1).
    destruct (type_eqb (current_type r1) TOKEN_RPAREN) eqn:Hr.
    + apply type_eqb_eq in Hr. step_alike A1.
      injection H as <- <-. eauto.
    + injection H as <- <-. eauto using alike_error.
Qed.

(** Texts whose first parsers are alike evaluate alike. *)
Lemma alike_evaluate s1 s2 :
  alike D (parser_init D (lexer_init s1)) (parser_init D (lexer_init s2)) ->
  evaluate D s1 = evaluate D s2.
Proof.
  intros A. destruct (enough_fuel_suffices D s1) as (v & q1 & E).
  destruct (alike_rules (enough_fuel s1)) as (He & _).
  destruct (He _ _ _ _ A E) as (q2 & E2 & (Hs & Herr & Hh)).
  rewrite (evaluate_run D s1 _ _ _ E), (evaluate_run D s2 _ _ _ E2).
  unfold current_type. now rewrite Herr, Hh, (same_tokens_current _ _ Hs).
Qed.

(** *** Streams of tokens *)

Lemma token_stream_firstn n m l :
  n <= m -> token_stream D n l = firstn n (token_stream D m l).
Proof.
  revert m l; induction n as [|n IH]; intros m l Hle; [reflexivity|].
  destruct m as [|m]; [lia|]. cbn [token_stream firstn]. f_equal.
  destruct (type_eqb (type (current l)) TOKEN_EOF);
    [now rewrite firstn_nil|].
  apply IH. lia.
Qed.

(** What is left to read from a lexer state. *)
Let left_to_read (l : Lexer) : nat := pending (mkParser l "" false).

Lemma left_to_read_advance l :
  type (current l) <> TOKEN_EOF ->
  left_to_read (lexer_advance D l) < left_to_read l.
Proof. intros H. exact (advance_pending D (mkParser l "" false) H). Qed.

(** With more fuel than there is left to read, the stream is whole. *)
Lemma token_stream_whole n m l :
  left_to_read l < n -> left_to_read l < m ->
  token_stream D n l = token_stream D m l.
Proof.
  revert m l; induction n as [|n IH]; intros m l Hn Hm; [lia|].
  destruct m as [|m]; [lia|]. cbn [token_stream]. f_equal.
  destruct (type_eqb (type (current l)) TOKEN_EOF) eqn:E; [reflexivity|].
  apply type_eqb_neq in E. pose proof (left_to_read_advance l E).
  apply IH; lia.
Qed.

Lemma first_token_left s :
  left_to_read (lexer_advance D (lexer_init s)) <= String.length s.
Proof.
  unfold left_to_read, pending, current_type, lexer_advance. cbn [lexer].
  pose proof (lexer_next_token_progress D (lexer_init s)) as H.
  destruct (lexer_next_token D (lexer_init s)) as [t l'].
  destruct H as [Hle Hlt].
  change (remaining {| input := input l'; position := position l';
                       current := t |}) with (remaining l').
  change (remaining (lexer_init s)) with s in *. cbn [current].
  unfold type_eqb. destruct (TokenType_eq_dec (type t) TOKEN_EOF); [lia|].
  specialize (Hlt n). lia.
Qed.

Lemma tokenize_same_tokens s1 s2 :
  tokenize D s1 = tokenize D s2 ->
  same_tokens D (lexer_advance D (lexer_init s1))
                (lexer_advance D (lexer_init s2)).
Proof.
  intros H n. unfold tokenize in H.
  pose proof (first_token_left s1). pose proof (first_token_left s2).
  set (m := n + S (String.length s1) + S (String.length s2)).
  rewrite (token_stream_firstn n m) by lia.
  rewrite (token_stream_firstn n m (lexer_advance D (lexer_init s2))) by lia.
  rewrite <- (token_stream_whole (S (String.length s1)) m) by lia.
  rewrite <- (token_stream_whole (S (String.length s2)) m) by lia.
  now rewrite H.
Qed.

(** *** White space around the tokens *)

Lemma remaining_skip l :
  remaining (lexer_skip_whitespace l) = trim (remaining l).
Proof. apply remaining_set_position. Qed.

(** [lexer_next_token] looks at the text through [scan]. *)
Lemma lexer_next_token_scan l :
  let l' := lexer_skip_whitespace l in
  lexer_next_token D l =
  (fst (scan D (remaining l')),
   set_position l' (position l' + snd (scan D (remaining l')))).
Proof.
  intros l'. unfold lexer_next_token, scan. fold l'.
  change (char_at (input l') (position l')) with (peek (remaining l')).
  rewrite char_at_next.
  destruct (is_nul _).
  { cbn [fst snd]. rewrite Nat.add_0_r. now destruct l'. }
  destruct (_ || _).
  { unfold lexer_read_number. cbn [fst snd position set_position].
    now rewrite Nat.add_comm, Nat.add_sub, Nat.add_comm. }
  destruct (isalpha _); [|reflexivity].
  unfold lexer_read_identifier. cbn [fst snd position set_position].
  now rewrite Nat.add_comm, Nat.add_sub, Nat.add_comm.
Qed.

Lemma blank_head b :
  blank b = true -> isdigit (peek b) = false /\ isalpha (peek b) = false
  /\ Ascii.eqb (peek b) "." = false.
Proof.
  destruct b as [|c b]; cbn; [auto|].
  intros [Hc _]%andb_true_iff. unfold isspace in Hc.
  unfold isdigit, isalpha.
  destruct (Ascii.eqb_spec c "."); [subst c; discriminate|].
  apply orb_true_iff in Hc as [Hc%Nat.eqb_eq|Hc].
  - rewrite Hc. auto.
  - apply andb_true_iff in Hc as [H1%Nat.leb_le H2%Nat.leb_le].
    repeat split; auto.
    + apply andb_false_iff. left. apply Nat.leb_gt. lia.
    + apply orb_false_iff. split; apply andb_false_iff; left;
        apply Nat.leb_gt; lia.
Qed.

Lemma span_app_blank f w b :
  blank b = true -> f (peek b) = false ->
  span f (w ++ b) = span f w.
Proof.
  intros Hb Hf. induction w as [|c w IH]; cbn.
  - destruct b as [|c b]; cbn in *; [reflexivity|].
    now rewrite Hf, andb_false_r.
  - destruct (negb (is_nul c) && f c); [now rewrite IH|reflexivity].
Qed.

Lemma number_span_app_blank h w b :
  blank b = true -> number_span h (w ++ b) = number_span h w.
Proof.
  intros Hb. destruct (blank_head b Hb) as (Hd & _ & Hp).
  revert h; induction w as [|c w IH]; intros h; cbn.
  - destruct b as [|c b]; cbn in *; [reflexivity|].
    destruct (is_nul c); [reflexivity|]. now rewrite Hd, Hp.
  - destruct (is_nul c); [reflexivity|].
    destruct (isdigit c); [now rewrite IH|].
    destruct (Ascii.eqb c "." && negb h); [now rewrite IH|reflexivity].
Qed.

Lemma strncpy_app w b n :
  n <= String.length w -> strncpy (w ++ b) n = strncpy w n.
Proof.
  unfold strncpy. revert n; induction w as [|c w IH]; intros n Hn; cbn in *.
  - assert (n = 0) by lia. subst n. now destruct b.
  - destruct n as [|n]; [reflexivity|]. cbn. rewrite IH; [reflexivity|lia].
Qed.

Lemma drop_app w b n :
  n <= String.length w -> drop n (w ++ b) = drop n w ++ b.
Proof.
  revert n; induction w as [|c w IH]; intros n Hn; cbn in *.
  - assert (n = 0) by lia. now subst n.
  - destruct n as [|n]; [reflexivity|]. cbn. apply IH. lia.
Qed.

Lemma token_len_le n : token_len n <= n.
Proof.
  unfold token_len, MAX_TOKEN_LEN.
  destruct (256 <=? n) eqn:E; [apply Nat.leb_le in E|]; lia.
Qed.

(** White space after a text that begins with a token does not change
    that token. *)
Lemma scan_app_blank c w b :
  blank b = true ->
  scan D (String c w ++ b) = scan D (String c w)
  /\ snd (scan D (String c w)) <= String.length (String c w).
Proof.
  intros Hb. destruct (blank_head b Hb) as (Hd & Ha & _).
  unfold scan. change (peek (String c w ++ b)) with c.
  change (peek (String c w)) with c.
  assert (Hnext : isdigit (peek (drop 1 (String c w ++ b)))
                  = isdigit (peek (drop 1 (String c w)))).
  { cbn [drop append]. destruct w; [cbn; now rewrite Hd|reflexivity]. }
  rewrite Hnext.
  destruct (is_nul c); [split; [reflexivity|cbn; lia]|].
  destruct (_ || _).
  { rewrite number_span_app_blank by assumption.
    pose proof (number_span_le false (String c w)).
    pose proof (token_len_le (number_span false (String c w))).
    rewrite strncpy_app by lia. auto. }
  destruct (isalpha c).
  { rewrite span_app_blank by assumption.
    pose proof (span_le isalpha (String c w)).
    pose proof (token_len_le (span isalpha (String c w))).
    rewrite strncpy_app by lia. auto. }
  split; [reflexivity|cbn; lia].
Qed.

Lemma trim_blank b : blank b = true -> trim b = EmptyString.
Proof. intros Hb. unfold trim. rewrite blank_span by assumption. apply drop_all. Qed.

Lemma trim_app_blank a r : blank a = true -> trim (a ++ r) = trim r.
Proof.
  unfold trim. induction a as [|c a IH]; cbn; [reflexivity|].
  intros [Hc Ha]%andb_true_iff.
  rewrite (isspace_not_nul _ Hc), Hc. cbn. auto.
Qed.

(** A text either is white space or, trimmed, begins with something
    else. *)
Lemma trim_cases r :
  (blank r = true /\ trim r = EmptyString)
  \/ (exists c w, trim r = String c w
                  /\ negb (is_nul c) && isspace c = false
                  /\ forall b, trim (r ++ b) = String c w ++ b).
Proof.
  unfold trim. induction r as [|c r IH]; cbn; [auto|].
  destruct (negb (is_nul c) && isspace c) eqn:E.
  - apply andb_true_iff in E as [_ Hc]. rewrite Hc. cbn.
    destruct IH as [[Hb Ht]|(c' & w & Ht & Hc' & Happ)]; [auto|].
    right. exists c', w. auto.
  - right. exists c, r. repeat split; auto.
Qed.

Lemma blank_app a b :
  blank a = true -> blank b = true -> blank (a ++ b) = true.
Proof.
  induction a as [|c a IH]; cbn; [auto|].
  intros [Hc Ha]%andb_true_iff Hb. rewrite Hc. cbn. auto.
Qed.

(** The next token of two texts that differ in white space before and
    after is the same, and so do the texts that are left. *)
Lemma space_step l1 l2 :
  same_but_space (remaining l1) (remaining l2) ->
  fst (lexer_next_token D l1) = fst (lexer_next_token D l2)
  /\ same_but_space (remaining (snd (lexer_next_token D l1)))
                    (remaining (snd (lexer_next_token D l2))).
Proof.
  intros (b & Hb & Ht).
  rewrite !lexer_next_token_scan. cbn [fst snd].
  rewrite !remaining_set_position, !remaining_skip.
  rewrite Ht. clear Ht.
  destruct (trim_cases (remaining l2)) as [[Hb2 Ht2]|(c & w & Ht2 & Hc & Happ)].
  - rewrite Ht2, (trim_blank _ (blank_app _ _ Hb2 Hb)). split; [reflexivity|].
    exists EmptyString. auto.
  - rewrite Ht2, Happ.
    destruct (scan_app_blank c w b Hb) as [-> Hle]. split; [reflexivity|].
    rewrite drop_app by assumption.
    exists b. auto.
Qed.

Lemma space_same_tokens l1 l2 :
  current l1 = current l2 ->
  same_but_space (remaining l1) (remaining l2) ->
  same_tokens D l1 l2.
Proof.
  intros Hc Hs n. revert l1 l2 Hc Hs.
  induction n as [|n IH]; intros l1 l2 Hc Hs; [reflexivity|].
  cbn [token_stream]. rewrite Hc. f_equal.
  destruct (type_eqb (type (current l2)) TOKEN_EOF); [reflexivity|].
  destruct (space_step l1 l2 Hs) as [Ht Hr].
  apply IH.
  - unfold lexer_advance.
    destruct (lexer_next_token D l1), (lexer_next_token D l2). exact Ht.
  - unfold lexer_advance.
    destruct (lexer_next_token D l1) as [t1 r1],
             (lexer_next_token D l2) as [t2 r2]. exact Hr.
Qed.

(** The first tokens of two texts that differ in the white space around
    them, and all the tokens after. *)
Lemma same_tokens_advance_init l1 l2 :
  same_but_space (remaining l1) (remaining l2) ->
  same_tokens D (lexer_advance D l1) (lexer_advance D l2).
Proof.
  intros Hs. destruct (space_step l1 l2 Hs) as [Ht Hr].
  apply space_same_tokens; unfold lexer_advance;
    destruct (lexer_next_token D l1) as [t1 r1],
             (lexer_next_token D l2) as [t2 r2]; assumption.
Qed.

End TokenView.

Section CoreExtras.

Context {M : Libm}.
Variable D : Dialect.

Import Grammar.

Lemma scan_le w : snd (scan D w) <= String.length w.
Proof.
  unfold scan. destruct w as [|c w].
  - reflexivity.
  - change (peek (String c w)) with c.
    destruct (is_nul c); [cbn; lia|].
    destruct (_ || _); [apply number_span_le|].
    destruct (isalpha c); [apply span_le|cbn; lia].
Qed.

(** [lexer_advance] keeps the text, moves the position forward, and keeps
    it within the text. *)
Lemma lexer_advance_forward l :
  input (lexer_advance D l) = input l
  /\ position l <= position (lexer_advance D l)
  /\ (position l <= String.length (input l) ->
      position (lexer_advance D l) <= String.length (input l)).
Proof.
  unfold lexer_advance. rewrite lexer_next_token_scan.
  cbn [input position set_position lexer_skip_whitespace].
  pose proof (scan_le (remaining (lexer_skip_whitespace l))) as Hk.
  rewrite remaining_skip in *. unfold trim in *.
  pose proof (span_le isspace (remaining l)) as Hs.
  unfold remaining in *.
  repeat rewrite drop_length in Hk. repeat rewrite drop_length in Hs.
  repeat split; lia.
Qed.

Lemma forward_refl p : forward p p.
Proof. unfold forward. auto. Qed.

Lemma forward_trans p q r : forward p q -> forward q r -> forward p r.
Proof.
  unfold forward. intros (H1 & H2 & H3) (H4 & H5 & H6).
  rewrite H1 in *. repeat split; [congruence|lia|auto].
Qed.

Lemma forward_advance p : forward p (advance D p).
Proof. exact (lexer_advance_forward (lexer p)). Qed.

Lemma forward_error p m : forward p (parser_error p m).
Proof. unfold forward. cbn. auto. Qed.

Ltac stays_forward :=
  first [apply forward_refl | apply forward_advance | apply forward_error].

Lemma forward_rules n :
  (forall p r, parse_expression D n p = Some r -> forward p (snd r)) /\
  (forall l p r, expression_loop D n l p = Some r -> forward p (snd r)) /\
  (forall p r, parse_term D n p = Some r -> forward p (snd r)) /\
  (forall l p r, term_loop D n l p = Some r -> forward p (snd r)) /\
  (forall p r, parse_factor D n p = Some r -> forward p (snd r)) /\
  (forall l p r, factor_loop D n l p = Some r -> forward p (snd r)) /\
  (forall p r, parse_power D n p = Some r -> forward p (snd r)) /\
  (forall p r, parse_unary D n p = Some r -> forward p (snd r)) /\
  (forall p r, parse_primary D n p = Some r -> forward p (snd r)).
Proof.
  induction n as [|n IH].
  { repeat match goal with |- _ /\ _ => split end; intros; discriminate. }
  destruct IH as (He & Hel & Ht & Htl & Hf & Hfl & Hpw & Hu & Hpr).
  repeat match goal with |- _ /\ _ => split end.
  - intros p r H. rewrite parse_expression_eq in H.
    destruct (parse_term D n p) as [[l p1]|] eqn:E; [|discriminate].
    exact (forward_trans _ _ _ (Ht _ _ E) (Hel _ _ _ H)).
  - intros l p r H. rewrite expression_loop_eq in H.
    destruct (has_error p); [injection H as <-; stays_forward|].
    destruct (current_type p);
      try (injection H as <-; stays_forward; fail);
      (destruct (parse_term D n (advance D p)) as [[x p1]|] eqn:E;
       [|discriminate]);
      exact (forward_trans _ _ _ (forward_advance p)
               (forward_trans _ _ _ (Ht _ _ E) (Hel _ _ _ H))).
  - intros p r H. rewrite parse_term_eq in H.
    destruct (parse_factor D n p) as [[l p1]|] eqn:E; [|discriminate].
    exact (forward_trans _ _ _ (Hf _ _ E) (Htl _ _ _ H)).
  - intros l p r H. rewrite term_loop_eq in H.
    destruct (has_error p); [injection H as <-; stays_forward|].
    destruct (current_type p);
      try (injection H as <-; stays_forward; fail);
      (destruct (parse_factor D n (advance D p)) as [[x p1]|] eqn:E;
       [|discriminate]);
      apply (forward_trans _ _ _ (forward_advance p));
      apply (forward_trans _ _ _ (Hf _ _ E)); cbn [snd];
      try (destruct (x =? 0)%float;
           [injection H as <-; stays_forward|]);
      exact (Htl _ _ _ H).
  - intros p r H. rewrite parse_factor_eq in H.
    destruct (implicit_multiplication D); [|exact (Hpw _ _ H)].
    destruct (parse_power D n p) as [[l p1]|] eqn:E; [|discriminate].
    exact (forward_trans _ _ _ (Hpw _ _ E) (Hfl _ _ _ H)).
  - intros l p r H. rewrite factor_loop_eq in H.
    destruct (has_error p); [injection H as <-; stays_forward|].
    destruct (starts_operand (current_type p));
      [|injection H as <-; stays_forward].
    destruct (parse_power D n p) as [[x p1]|] eqn:E; [|discriminate].
    exact (forward_trans _ _ _ (Hpw _ _ E) (Hfl _ _ _ H)).
  - intros p r H. rewrite parse_power_eq in H.
    destruct (parse_unary D n p) as [[l p1]|] eqn:E; [|discriminate].
    apply (forward_trans _ _ _ (Hu _ _ E)). cbn [snd].
    destruct (negb (has_error p1) && type_eqb (current_type p1) TOKEN_POWER);
      [|injection H as <-; stays_forward].
    destruct (parse_power D n (advance D p1)) as [[x p2]|] eqn:E2;
      [|discriminate].
    injection H as <-.
    exact (forward_trans _ _ _ (forward_advance p1) (Hpw _ _ E2)).
  - intros p r H.
    destruct (is_function (current_type p)) eqn:Hfn.
    + rewrite parse_unary_function in H by assumption.
      destruct (parse_primary D n (advance D p)) as [[x p1]|] eqn:E;
        [|discriminate].
      injection H as <-.
      apply (forward_trans _ _ _ (forward_advance p)).
      apply (forward_trans _ _ _ (Hpr _ _ E)). cbn [snd].
      unfold apply_function.
      destruct (current_type p);
        try (cbn [snd]; stays_forward; fail);
        (match goal with |- context [if ?b then _ else _] => destruct b end;
         cbn [snd]; stays_forward).
    + rewrite parse_unary_eq in H.
      destruct (current_type p); try discriminate Hfn;
        try exact (Hpr _ _ H).
      * exact (forward_trans _ _ _ (forward_advance p) (Hu _ _ H)).
      * destruct (parse_unary D n (advance D p)) as [[x p1]|] eqn:E;
          [|discriminate].
        injection H as <-.
        exact (forward_trans _ _ _ (forward_advance p) (Hu _ _ E)).
  - intros p r H. rewrite parse_primary_eq in H.
    destruct (current_type p);
      try (injection H as <-; stays_forward; fail).
    destruct (parse_expression D n (advance D p)) as [[x p1]|] eqn:E;
      [|discriminate].
    apply (forward_trans _ _ _ (forward_advance p)).
    apply (forward_trans _ _ _ (He _ _ E)). cbn [snd].
    destruct (type_eqb (current_type p1) TOKEN_RPAREN);
      injection H as <-; stays_forward.
Qed.

(** A first token that cannot begin an expression goes to the last branch
    of [parse_primary]. *)
Lemma first_token_rejected n p :
  starts_expression (current_type p) = false ->
  parse_expression D (6 + n) p
  = Some (0%float, parser_error p (rejection D (current (lexer p)))).
Proof.
  intros Hs. apply (failure_surfaces D (2 + n)); [|reflexivity].
  cbn [Nat.add]. unfold rejection. fold (current_type p).
  rewrite parse_unary_plain, parse_primary_eq;
    destruct (current_type p); try reflexivity; try discriminate.
Qed.

(** An opening parenthesis, the tokens of an expression that has a value,
    and the end of the input: [parse_primary] records the missing
    parenthesis, and nothing is recorded after it. *)
Lemma unclosed_fails s e v :
  valid_expression (implicit_multiplication D) e = true ->
  value_expression e = Some v ->
  lexemes D s
  = (sign TOKEN_LPAREN :: render_expression e ++ [sign TOKEN_EOF])%list ->
  exists n p,
    parse_expression D n (parser_init D (lexer_init s)) = Some (0%float, p)
    /\ has_error p = true /\ error p = strncpy (msg_paren D) 255.
Proof.
  intros Hv Hx Hs.
  apply (lexemes_Reads D s (sign TOKEN_LPAREN :: render_expression e)) in Hs.
  apply Reads_head in Hs as (Hcur & _ & Hr); [|discriminate].
  destruct grammar_sound with (D := D)
    as (_ & _ & _ & _ & _ & _ & _ & He & _).
  destruct (He e v (advance D (parser_init D (lexer_init s)))
              [sign TOKEN_EOF])
    as (p1 & n1 & E1 & Hok & _ & Hr1); auto.
  exists (4 + S (S n1)), (parser_error p1 (msg_paren D)).
  split; [|split; reflexivity].
  apply failure_surfaces; [|reflexivity].
  rewrite parse_unary_plain, parse_primary_eq;
    try (unfold current_type; rewrite Hcur; try reflexivity; discriminate).
  unfold current_type at 1. rewrite Hcur, E1 by lia.
  unfold current_type. now rewrite (Reads_next _ _ _ Hr1).
Qed.

(** Where a letter begins the text, the token is the word made of the
    letters that follow one another. *)
Lemma identifier_token l :
  let l' := lexer_skip_whitespace l in
  let w := remaining l' in
  isalpha (peek w) = true ->
  lexer_next_token D l =
  (keyword D (strncpy w (token_len (span isalpha w))),
   set_position l' (position l' + span isalpha w)).
Proof.
  intros l' w Ha. rewrite lexer_next_token_scan. fold l'. fold w.
  unfold scan.
  assert (Hn : is_nul (peek w) = false).
  { unfold isalpha, is_nul in *. destruct (nat_of_ascii (peek w));
      [discriminate|reflexivity]. }
  assert (Hd : isdigit (peek w) = false).
  { unfold isalpha, isdigit in *.
    apply orb_true_iff in Ha as [Ha|Ha];
      apply andb_true_iff in Ha as [H1%Nat.leb_le H2%Nat.leb_le];
      apply andb_false_iff; right; apply Nat.leb_gt; lia. }
  assert (Hp : Ascii.eqb (peek w) "." = false).
  { destruct (Ascii.eqb_spec (peek w) "."); [|reflexivity].
    rewrite e in Ha. discriminate. }
  now rewrite Hn, Hd, Hp, Ha.
Qed.

(** A word is a function or a constant exactly when it is one of the nine
    words, letter for letter; any other is an error that carries it. *)
Lemma keyword_words w :
  (In w words <-> type (keyword D w) <> TOKEN_ERROR)
  /\ (~ In w words ->
      keyword D w = mkToken TOKEN_ERROR 0 (msg_unknown_identifier D ++ w)).
Proof.
  unfold keyword, words.
  repeat match goal with
         | |- context [String.eqb w ?k] =>
             destruct (String.eqb_spec w k);
             [subst w; split;
              [split; [intros _; discriminate|intros _; cbn; tauto]
              |intros H; exfalso; apply H; cbn; tauto]|]
         end.
  split; [split|reflexivity].
  - cbn. intuition congruence.
  - intros H. now contradiction H.
Qed.

End CoreExtras.

(* ================================================================= *)
(** * calculator_tui.c: the history and the line editor *)

Section Texts.

Lemma append_length a b :
  String.length (a ++ b) = String.length a + String.length b.
Proof. induction a as [|c a IH]; cbn; [reflexivity|now rewrite IH]. Qed.

Lemma append_nil a : (a ++ "")%string = a.
Proof. induction a as [|c a IH]; cbn; [reflexivity|now rewrite IH]. Qed.

Lemma append_assoc a b c : ((a ++ b) ++ c)%string = (a ++ b ++ c)%string.
Proof. induction a as [|x a IH]; cbn; [reflexivity|now rewrite IH]. Qed.

Lemma take_length n s :
  String.length (substring 0 n s) = Nat.min n (String.length s).
Proof.
  revert n; induction s as [|c s IH]; intros [|n]; cbn; try reflexivity.
  now rewrite IH.
Qed.

Lemma take_drop n s : (substring 0 n s ++ drop n s)%string = s.
Proof.
  revert n; induction s as [|c s IH]; intros [|n]; cbn; try reflexivity.
  now rewrite IH.
Qed.

Lemma take_all s : substring 0 (String.length s) s = s.
Proof. induction s as [|c s IH]; cbn; [reflexivity|now rewrite IH]. Qed.

Lemma take_app a b k :
  substring 0 (String.length a + k) (a ++ b)
  = (a ++ substring 0 k b)%string.
Proof. induction a as [|c a IH]; cbn; [reflexivity|now rewrite IH]. Qed.

Lemma drop_past a b k : drop (String.length a + k) (a ++ b) = drop k b.
Proof. induction a as [|c a IH]; cbn; [reflexivity|exact IH]. Qed.

Lemma drop_zero s : drop 0 s = s.
Proof. now destruct s. Qed.

End Texts.

Section TuiFacts.

Import Tui.

Lemma all_printable_app a b :
  all_printable (a ++ b) = all_printable a && all_printable b.
Proof.
  induction a as [|c a IH]; cbn; [reflexivity|].
  now rewrite IH, andb_assoc.
Qed.

Lemma all_printable_take n s :
  all_printable s = true -> all_printable (substring 0 n s) = true.
Proof.
  revert n; induction s as [|c s IH]; intros [|n] H; cbn in *;
    try reflexivity.
  apply andb_true_iff in H as [Hc Hs]. now rewrite Hc, IH.
Qed.

Lemma all_printable_drop n s :
  all_printable s = true -> all_printable (drop n s) = true.
Proof.
  revert n; induction s as [|c s IH]; intros [|n] H; cbn in *;
    try reflexivity; try assumption.
  apply andb_true_iff in H as [Hc Hs]. now apply IH.
Qed.

Lemma fits_empty : fits "".
Proof. split; [reflexivity|]. unfold strlen, MAX_EXPR_LEN. cbn. lia. Qed.

Lemma store_nat_length {A : Type} (a : list A) i x :
  List.length (store_nat a i x) = List.length a.
Proof.
  revert i; induction a as [|h a IH]; intros [|i]; cbn; try reflexivity.
  now rewrite IH.
Qed.

Lemma store_length {A : Type} (a : list A) i x :
  List.length (store a i x) = List.length a.
Proof.
  unfold store. destruct (i <? 0)%Z; [reflexivity|apply store_nat_length].
Qed.

Lemma store_nat_Forall {A : Type} (P : A -> Prop) a i x :
  Forall P a -> P x -> Forall P (store_nat a i x).
Proof.
  intros Ha Hx. revert i; induction Ha as [|h a Hh Ha IH]; intros [|i]; cbn;
    auto.
Qed.

Lemma store_Forall {A : Type} (P : A -> Prop) a i x :
  Forall P a -> P x -> Forall P (store a i x).
Proof.
  intros Ha Hx. unfold store.
  destruct (i <? 0)%Z; [assumption|now apply store_nat_Forall].
Qed.

Lemma load_Forall {A : Type} (P : A -> Prop) d a i :
  Forall P a -> P d -> P (load d a i).
Proof.
  intros Ha Hd. unfold load. generalize (Z.to_nat i) as n.
  induction Ha as [|h a Hh Ha IH]; intros [|n]; cbn; auto.
Qed.

(** What [move_all_down] keeps. *)
Lemma move_all_down_kept fuel h i :
  let h' := move_all_down fuel h i in
  List.length (expressions h') = List.length (expressions h)
  /\ List.length (results h') = List.length (results h)
  /\ List.length (errors h') = List.length (errors h)
  /\ count h' = count h /\ current h' = current h
  /\ (Forall fits (expressions h) -> Forall fits (expressions h')).
Proof.
  revert h i; induction fuel as [|k IH]; intros h i; cbv zeta;
    cbn [move_all_down].
  - auto 10.
  - destruct (i <? MAX_HISTORY - 1)%Z; [|auto 10].
    specialize (IH (move_down h i) (i + 1)%Z). cbv zeta in IH.
    destruct IH as (E1 & E2 & E3 & E4 & E5 & E6).
    rewrite E1, E2, E3, E4, E5. unfold move_down in *.
    cbn [expressions results errors count current] in *.
    rewrite !store_length.
    repeat match goal with |- _ /\ _ => split end; try reflexivity.
    intros H. apply E6. apply store_Forall; [assumption|].
    apply load_Forall; [assumption|exact fits_empty].
Qed.

Lemma add_to_history_in_bounds expr result error h :
  history_in_bounds h -> fits expr ->
  history_in_bounds (add_to_history expr result error h).
Proof.
  intros (L1 & L2 & L3 & Hc & Hk & Hf) He.
  unfold add_to_history, history_in_bounds, MAX_HISTORY in *.
  destruct (Z.ltb_spec (count h) 10);
    cbn [put expressions results errors count current].
  - rewrite !store_length.
    repeat match goal with |- _ /\ _ => split end; try assumption; try lia.
    now apply store_Forall.
  - destruct (move_all_down_kept (Z.to_nat 10) h 0)
      as (E1 & E2 & E3 & E4 & E5 & E6).
    cbv zeta in E1, E2, E3, E4, E5, E6.
    rewrite !store_length, E1, E2, E3, E4.
    repeat match goal with |- _ /\ _ => split end; try assumption; try lia.
    apply store_Forall; [now apply E6|assumption].
Qed.

Lemma insert_char_length s i c :
  (0 <= i <= strlen s)%Z -> strlen (insert_char s i c) = (strlen s + 1)%Z.
Proof.
  intros H. unfold insert_char, strlen in *.
  rewrite append_length, take_length. cbn [String.length].
  rewrite drop_length. lia.
Qed.

Lemma insert_char_printable s i c :
  all_printable s = true -> printable c = true ->
  all_printable (insert_char s i c) = true.
Proof.
  intros Hs Hc. unfold insert_char. rewrite all_printable_app. cbn.
  now rewrite all_printable_take, Hc, all_printable_drop.
Qed.

Lemma delete_char_length s i :
  (0 < i <= strlen s)%Z -> strlen (delete_char s i) = (strlen s - 1)%Z.
Proof.
  intros H. unfold delete_char, strlen in *.
  rewrite append_length, take_length, drop_length. lia.
Qed.

Lemma delete_char_printable s i :
  all_printable s = true -> all_printable (delete_char s i) = true.
Proof.
  intros Hs. unfold delete_char. rewrite all_printable_app.
  now rewrite all_printable_take, all_printable_drop.
Qed.

Lemma clear_line_in_bounds st : in_bounds st -> in_bounds (clear_line st).
Proof.
  intros (Hh & _ & _). split; [exact Hh|]. split; [exact fits_empty|].
  unfold strlen; cbn; lia.
Qed.

Lemma recall_in_bounds st i :
  in_bounds st -> (0 <= i <= count (history st))%Z ->
  in_bounds (recall st i).
Proof.
  intros ((L1 & L2 & L3 & Hc & Hk & Hf) & _ & _) Hi.
  assert (Hl : fits (load "" (expressions (history st)) i))
    by (apply load_Forall; [assumption|exact fits_empty]).
  unfold in_bounds, history_in_bounds, recall. cbn.
  repeat match goal with |- _ /\ _ => split end; try assumption; try lia.
  unfold strlen; lia.
Qed.

Lemma arrow_in_bounds k st : in_bounds st -> in_bounds (arrow k st).
Proof.
  intros H. pose proof H as ((L1 & L2 & L3 & Hc & Hk & Hf) & He & Hp).
  unfold arrow.
  destruct (Ascii.eqb k "A").
  { destruct (Z.ltb_spec 0 (current (history st))); [|assumption].
    apply recall_in_bounds; [assumption|lia]. }
  destruct (Ascii.eqb k "B").
  { destruct (Z.ltb_spec (current (history st)) (count (history st) - 1)).
    - apply recall_in_bounds; [assumption|lia].
    - destruct (Z.eqb_spec (current (history st)) (count (history st) - 1));
        [|assumption].
      unfold in_bounds, history_in_bounds. cbn.
      repeat match goal with |- _ /\ _ => split end; try assumption;
        try lia; try exact fits_empty; unfold strlen; cbn; lia. }
  destruct (Ascii.eqb k "C").
  { destruct (Z.ltb_spec (cursor_pos st) (strlen (current_expr st)));
      [|assumption].
    unfold in_bounds. cbn. repeat split; try assumption; try lia;
      apply He. }
  destruct (Ascii.eqb k "D"); [|assumption].
  destruct (Z.ltb_spec 0 (cursor_pos st)); [|assumption].
  unfold in_bounds. cbn. repeat split; try assumption; try lia; apply He.
Qed.

Context {M : Libm}.

Lemma key_in_bounds c st : in_bounds st -> in_bounds (key c st).
Proof.
  intros H. pose proof H as (Hh & He & Hp). unfold key.
  destruct ((nat_of_ascii c =? 10) || (nat_of_ascii c =? 13)).
  { destruct (Z.ltb_spec 0 (strlen (current_expr st))); [|assumption].
    destruct (evaluate_c tui (current_expr st)) as [result error_msg].
    unfold in_bounds. cbn.
    split; [now apply add_to_history_in_bounds|].
    split; [exact fits_empty|]. unfold strlen; cbn; lia. }
  destruct ((nat_of_ascii c =? 127) || (nat_of_ascii c =? 8)).
  { destruct (Z.ltb_spec 0 (cursor_pos st)); [|assumption].
    unfold in_bounds. cbn. split; [assumption|].
    destruct He as [Ha Hl].
    rewrite delete_char_length by lia.
    split; [split|lia].
    - now apply delete_char_printable.
    - rewrite delete_char_length by lia. lia. }
  destruct ((32 <=? nat_of_ascii c) && (nat_of_ascii c <? 127)) eqn:Ec;
    [|assumption].
  unfold MAX_EXPR_LEN.
  destruct (Z.ltb_spec (strlen (current_expr st)) (1024 - 1)); [|assumption].
  unfold in_bounds. cbn. split; [assumption|].
  destruct He as [Ha Hl].
  rewrite insert_char_length by lia.
  split; [split|lia].
  - now apply insert_char_printable.
  - rewrite insert_char_length by lia. unfold MAX_EXPR_LEN. lia.
Qed.

Lemma run_in_bounds n stdin st :
  List.length stdin <= n -> in_bounds st -> in_bounds (run st stdin).
Proof.
  revert stdin st; induction n as [|n IH]; intros stdin st Hn Hs.
  - destruct stdin; [assumption|cbn in Hn; lia].
  - destruct stdin as [|c rest]; [assumption|]. cbn in Hn. cbn [run].
    destruct (nat_of_ascii c =? 4); [assumption|].
    destruct (nat_of_ascii c =? 27).
    + destruct rest as [|s0 rest1]; [now apply clear_line_in_bounds|].
      cbn in Hn. destruct (Ascii.eqb s0 "[").
      * destruct rest1 as [|s1 rest2]; [assumption|]. cbn in Hn.
        apply IH; [lia|now apply arrow_in_bounds].
      * apply IH; [lia|assumption].
    + apply IH; [lia|now apply key_in_bounds].
Qed.

End TuiFacts.

(* ================================================================= *)
(** * The core beyond the claims *)

(* ----------------------------------------------------------------- *)
(** ** Tokens and white space *)

(** Two texts that the lexer cuts into the same tokens evaluate alike:
    the parser sees a text through its tokens only. *)
Theorem evaluate_reads_tokens (M : Libm) (D : Dialect) (s1 s2 : string) :
  tokenize D s1 = tokenize D s2 -> evaluate D s1 = evaluate D s2.
Proof.
  intros H. apply alike_evaluate. repeat split.
  exact (tokenize_same_tokens D s1 s2 H).
Qed.

Lemma spaced_sum_evaluates_alike :
  @evaluate Reference.libm tui "2+3*4"
  = @evaluate Reference.libm tui "2 + 3  *4".
Proof.
  apply (evaluate_reads_tokens Reference.libm tui). reflexivity.
Defined.

(** White space before and after a text does not change what it
    evaluates to, be it a value or an error. *)
Theorem space_around_is_ignored
  (M : Libm) (D : Dialect) (a s b : string) :
  blank a = true -> blank b = true ->
  evaluate D (a ++ s ++ b) = evaluate D s.
Proof.
  intros Ha Hb. apply alike_evaluate. repeat split.
  apply same_tokens_advance_init.
  exists b. split; [assumption|].
  change (remaining (lexer_init (a ++ s ++ b))) with (a ++ s ++ b).
  change (remaining (lexer_init s)) with s.
  now apply trim_app_blank.
Qed.

Lemma padded_division_fails_alike :
  @evaluate Reference.libm tui "  5/0 "
  = @evaluate Reference.libm tui "5/0".
Proof.
  apply (space_around_is_ignored Reference.libm tui "  " "5/0" " ");
    reflexivity.
Defined.

(** A run of letters is one token, cut to 255 characters: a function or a
    constant when it is one of the nine words exactly, capitals and all,
    and otherwise the error "Unknown" followed by the word. Digits do not
    belong to it. *)
Theorem identifier_is_a_word_or_unknown
  (M : Libm) (D : Dialect) (l : Lexer) :
  let l' := lexer_skip_whitespace l in
  let w := remaining l' in
  let word := strncpy w (token_len (span isalpha w)) in
  isalpha (peek w) = true ->
  lexer_next_token D l
  = (keyword D word, set_position l' (position l' + span isalpha w))
  /\ (In word words <-> type (keyword D word) <> TOKEN_ERROR)
  /\ (~ In word words ->
      keyword D word
      = mkToken TOKEN_ERROR 0 (msg_unknown_identifier D ++ word)).
Proof.
  intros l' w word Ha. split; [now apply identifier_token|].
  apply keyword_words.
Qed.

Lemma capital_sin_is_unknown :
  @lexer_next_token Reference.libm tui (lexer_init " Sin2")
  = (mkToken TOKEN_ERROR 0 "Unknown: Sin",
     mkLexer " Sin2" 4 (current (lexer_init " Sin2")))
  /\ @lexer_next_token Reference.libm tui (lexer_init "sin2")
     = (mkToken TOKEN_SIN 0 "sin",
        mkLexer "sin2" 3 (current (lexer_init "sin2"))).
Proof.
  split.
  - destruct (identifier_is_a_word_or_unknown Reference.libm tui
                (lexer_init " Sin2") eq_refl) as (H1 & _ & H3).
    rewrite H1. rewrite H3; [reflexivity|].
    cbn. intuition discriminate.
  - destruct (identifier_is_a_word_or_unknown Reference.libm tui
                (lexer_init "sin2") eq_refl) as (H1 & _).
    rewrite H1. reflexivity.
Defined.

(* ----------------------------------------------------------------- *)
(** ** The cursor *)

(** While an expression is parsed the text stays the same and the
    position of the lexer never goes back; from within the text it never
    leaves it. *)
Theorem cursor_only_advances
  (M : Libm) (D : Dialect) (n : nat) (p p' : Parser) (v : float) :
  parse_expression D n p = Some (v, p') ->
  input (lexer p') = input (lexer p)
  /\ position (lexer p) <= position (lexer p')
  /\ (position (lexer p) <= String.length (input (lexer p)) ->
      position (lexer p') <= String.length (input (lexer p))).
Proof.
  intros H. destruct (forward_rules D n) as (He & _). exact (He _ _ H).
Qed.

Lemma cursor_after_sum :
  let p' := mkParser (mkLexer "1+2 )" 5 (mkToken TOKEN_RPAREN 0 ")"))
                     "" false in
  @parse_expression Reference.libm tui 20
    (@parser_init Reference.libm tui (lexer_init "1+2 )"))
  = Some (3%float, p')
  /\ input (lexer p') = "1+2 )"
  /\ 1 <= position (lexer p') <= 5.
Proof.
  intros p'.
  assert (E : @parse_expression Reference.libm tui 20
                (@parser_init Reference.libm tui (lexer_init "1+2 )"))
              = Some (3%float, p')) by (vm_compute; reflexivity).
  destruct (cursor_only_advances Reference.libm tui 20 _ _ _ E)
    as (Hi & Hp & Hb).
  split; [exact E|]. split; [exact Hi|]. split; [exact Hp|].
  apply Hb. apply Nat.leb_le. reflexivity.
Defined.

(* ----------------------------------------------------------------- *)
(** ** Texts that are no expressions *)

(** When the first token cannot begin an expression, [evaluate] fails
    with the message [parse_primary] has for that token: the message of
    the lexer for an unknown word or character, the message of the
    unexpected end for an empty text, and "Unexpected" with the text of
    the token for an operator or a closing parenthesis. *)
Theorem first_token_must_begin_expression
  (M : Libm) (D : Dialect) (s : string) :
  let p := parser_init D (lexer_init s) in
  starts_expression (current_type p) = false ->
  evaluate D s
  = Some (Failure (strncpy (rejection D (current (lexer p))) 255)).
Proof.
  intros p Hs.
  now rewrite (evaluate_run D s _ _ _ (first_token_rejected D 0 p Hs)).
Qed.

Lemma unknown_word_and_stray_operator :
  @evaluate Reference.libm tui "foo + 1" = Some (Failure "Unknown: foo")
  /\ @evaluate Reference.libm tui "* 2" = Some (Failure "Unexpected: *")
  /\ @evaluate Reference.libm cli "#"
     = Some (Failure "Unexpected character: #").
Proof.
  split; [|split].
  - apply (first_token_must_begin_expression Reference.libm tui "foo + 1").
    reflexivity.
  - apply (first_token_must_begin_expression Reference.libm tui "* 2").
    reflexivity.
  - apply (first_token_must_begin_expression Reference.libm cli "#").
    reflexivity.
Defined.

(** A text that opens a parenthesis, goes on with a valid expression that
    has a value and ends there fails with the message of the missing
    parenthesis. *)
Theorem unclosed_parenthesis
  (M : Libm) (D : Dialect) (s : string)
  (e : Grammar.expression) (v : float) :
  valid_expression (implicit_multiplication D) e = true ->
  value_expression e = Some v ->
  lexemes D s
  = (sign TOKEN_LPAREN :: render_expression e ++ [sign TOKEN_EOF])%list ->
  evaluate D s = Some (Failure (strncpy (msg_paren D) 255)).
Proof.
  intros Hv Hx Hs.
  destruct (unclosed_fails D s e v Hv Hx Hs) as (n & p & E & Herr & Hm).
  now rewrite (evaluate_run D s _ _ _ E), Herr, Hm.
Qed.

Lemma unclosed_sum :
  @evaluate Reference.libm tui "(2 + 3" = Some (Failure "Missing )").
Proof.
  apply (unclosed_parenthesis Reference.libm tui "(2 + 3"
           (Expression (Term (Examples.literal 2) TermEnd)
                       (Add (Term (Examples.literal 3) TermEnd)
                            ExpressionEnd)) 5);
    reflexivity.
Defined.
